(** * Mask formatting of the masked-input component

    Shallow embedding of [src/registry/masked-input/masked-input.tsx]:
    [charMatchesMask], [formatToMask], [handleKeyDown], [handleChange],
    [handlePaste] and the displayed value.

    A JavaScript string is modelled as the list of its characters
    ([list ascii], one [ascii] for each code unit; the component compares
    characters with each other and with ranges of ASCII only); [s[i]] is the
    list lookup [s !! i], and an index outside the string is reported as
    [OutOfRange] so that the bounds of every access made by the formatter can
    be stated and proved. *)

From Stdlib Require Import Ascii NArith.
From stdpp Require Import list strings.

Local Open Scope char_scope.
Local Open Scope nat_scope.

(** ** Character data *)

(** A string literal as the list of its characters. *)
Definition chars (s : string) : list ascii := String.list_ascii_of_string s.

Definition code (c : ascii) : N := N_of_ascii c.

Definition inRange (lo hi : ascii) (c : ascii) : bool :=
  ((code lo <=? code c) && (code c <=? code hi))%N.

(** [/\d/] on a one-character string. *)
Definition isDigit (c : ascii) : bool := inRange "0" "9" c.

(** [/[A-Za-z]/] on a one-character string. *)
Definition isLetter (c : ascii) : bool := inRange "A" "Z" c || inRange "a" "z" c.

(** [/[A-Za-z0-9]/] on a one-character string. *)
Definition isAlnum (c : ascii) : bool :=
  inRange "A" "Z" c || inRange "a" "z" c || inRange "0" "9" c.

(** [/[A-Za-z0-9]/.test(s)]: the expression is not anchored, so it succeeds as
    soon as some character of [s] is in the class. *)
Definition testAlnum (s : list ascii) : bool := existsb isAlnum s.

(** [Array.prototype.includes] on an array of characters. *)
Definition includes (xs : list ascii) (c : ascii) : bool :=
  existsb (Ascii.eqb c) xs.

(** The array [['9', 'a', '*']] of the placeholder symbols. *)
Definition placeholders : list ascii := ["9"; "a"; "*"].

Definition charMatchesMask (char maskChar : ascii) : bool :=
  if Ascii.eqb maskChar "9" then isDigit char
  else if Ascii.eqb maskChar "a" then isLetter char
  else if Ascii.eqb maskChar "*" then isAlnum char
  else false.

(** ** Results of a computation that indexes strings *)

Inductive outcome (A : Type) : Type :=
| Ok (a : A)
| OutOfRange
| OutOfFuel.
Arguments Ok {A} a.
Arguments OutOfRange {A}.
Arguments OutOfFuel {A}.

#[global] Instance outcome_bind : MBind outcome := λ A B k m,
  match m with
  | Ok a => k a
  | OutOfRange => OutOfRange
  | OutOfFuel => OutOfFuel
  end.

(** [s[i]], checked. *)
Definition charAt (s : list ascii) (i : nat) : outcome ascii :=
  match s !! i with
  | Some c => Ok c
  | None => OutOfRange
  end.

(** [a && b] where [b] is evaluated only when [a] holds. *)
Definition andThen (a : bool) (b : outcome bool) : outcome bool :=
  if a then b else Ok false.

(** ** The formatter *)

(** The object [{ formatted, unformatted }]. *)
Record masked : Type := Masked {
  formatted : list ascii;
  unformatted : list ascii
}.

(** The variables of [formatToMask] that the loop updates. *)
Record locals : Type := Locals {
  out : masked;
  inputIndex : nat
}.

Definition initial : locals := Locals (Masked [] []) 0.

(** [formatted += char; unformatted += char; inputIndex++] *)
Definition place (char : ascii) (st : locals) : locals :=
  Locals (Masked (formatted (out st) ++ [char]) (unformatted (out st) ++ [char]))
         (S (inputIndex st)).

(** [formatted += maskChar; inputIndex++] *)
Definition typed (maskChar : ascii) (st : locals) : locals :=
  Locals (Masked (formatted (out st) ++ [maskChar]) (unformatted (out st)))
         (S (inputIndex st)).

(** [formatted += maskChar] *)
Definition inserted (maskChar : ascii) (st : locals) : locals :=
  Locals (Masked (formatted (out st) ++ [maskChar]) (unformatted (out st)))
         (inputIndex st).

(** How one run of the loop body ends: at its end (the loop goes on with
    [maskIndex + 1]) or at a [break]. *)
Inductive flow : Type :=
| Next (st : locals)
| Break (st : locals).

Section MaskedInput.

(** The [mask] property of the component, captured by its functions. *)
Variable mask : list ascii.

(** The body of the [for] loop at [maskIndex]. *)
Definition body (inputValue : list ascii) (maskIndex : nat) (st : locals)
  : outcome flow :=
  maskChar ← charAt mask maskIndex;
  if includes placeholders maskChar then
    if inputIndex st <? length inputValue then
      char ← charAt inputValue (inputIndex st);
      if charMatchesMask char maskChar then Ok (Next (place char st))
      else Ok (Next st)
    else Ok (Break st)
  else
    isTyped ← andThen (inputIndex st <? length inputValue)
                (c ← charAt inputValue (inputIndex st);
                 Ok (Ascii.eqb c maskChar));
    if (isTyped : bool) then Ok (Next (typed maskChar st))
    else if inputIndex st <? length inputValue then
      let nextMaskIndex := maskIndex + 1 in
      isSlot ← andThen (nextMaskIndex <? length mask)
                 (n ← charAt mask nextMaskIndex;
                  Ok (includes placeholders n));
      if (isSlot : bool) then
        c ← charAt inputValue (inputIndex st);
        n ← charAt mask nextMaskIndex;
        if charMatchesMask c n then Ok (Next (inserted maskChar st))
        else Ok (Break st)
      else Ok (Next (inserted maskChar st))
    else Ok (Break st).

(** [for (let maskIndex = ...; maskIndex < mask.length; maskIndex++)],
    started at [maskIndex]; [fuel] bounds the number of iterations. *)
Fixpoint loop (fuel : nat) (inputValue : list ascii) (maskIndex : nat)
    (st : locals) : outcome locals :=
  if maskIndex <? length mask then
    match fuel with
    | 0 => OutOfFuel
    | S fuel' =>
        r ← body inputValue maskIndex st;
        match r with
        | Next st' => loop fuel' inputValue (S maskIndex) st'
        | Break st' => Ok st'
        end
    end
  else Ok st.

(** The whole loop of [formatToMask], with the final value of every
    variable. The mask has [length mask] positions, and so many iterations
    are allowed. *)
Definition formatRun (inputValue : list ascii) : outcome locals :=
  loop (length mask) inputValue 0 initial.

Definition formatToMask (inputValue : list ascii) : outcome masked :=
  st ← formatRun inputValue;
  Ok (out st).

End MaskedInput.

(** ** The key-down handler *)

Record KeyboardEvent : Type := {
  key : string;
  ctrlKey : bool;
  metaKey : bool;
  altKey : bool;
  shiftKey : bool
}.

Definition allowedKeys : list string :=
  ["Backspace"; "Delete"; "ArrowLeft"; "ArrowRight"; "Tab"; "Enter"]%string.

(** [handleKeyDown e] is [true] when the handler reaches
    [e.preventDefault()] and [false] when it returns before. *)
Definition handleKeyDown (e : KeyboardEvent) : bool :=
  let isModifierKey := ctrlKey e || metaKey e || altKey e || shiftKey e in
  if isModifierKey then false
  else if existsb (String.eqb (key e)) allowedKeys then false
  else if testAlnum (chars (key e)) then false
  else true.

(** ** The loop as a recursion on the rest of the mask

    [walk ms inp] is what the loop appends and consumes when [ms] is the part
    of the mask from [maskIndex] on and [inp] the part of the input from
    [inputIndex] on. It is used for the proofs only; [loop_walk] ties it to
    [loop]. *)

(** May a literal that was not typed be inserted, [c] being the current input
    character and [ms'] the mask after the literal. *)
Definition lookahead (c : ascii) (ms' : list ascii) : bool :=
  match ms' with
  | n :: _ => if includes placeholders n then charMatchesMask c n else true
  | [] => true
  end.

Definition nothing : locals := Locals (Masked [] []) 0.

(** [d] with a consumed placeholder character, a typed literal or an inserted
    literal in front. *)
Definition placeFirst (c : ascii) (d : locals) : locals :=
  Locals (Masked (c :: formatted (out d)) (c :: unformatted (out d)))
         (S (inputIndex d)).

Definition typedFirst (m : ascii) (d : locals) : locals :=
  Locals (Masked (m :: formatted (out d)) (unformatted (out d)))
         (S (inputIndex d)).

Definition insertedFirst (m : ascii) (d : locals) : locals :=
  Locals (Masked (m :: formatted (out d)) (unformatted (out d)))
         (inputIndex d).

Fixpoint walk (ms inp : list ascii) : locals :=
  match ms with
  | [] => nothing
  | m :: ms' =>
      match inp with
      | [] => nothing
      | c :: inp' =>
          if includes placeholders m then
            if charMatchesMask c m then placeFirst c (walk ms' inp')
            else walk ms' inp
          else if Ascii.eqb c m then typedFirst m (walk ms' inp')
          else if lookahead c ms' then insertedFirst m (walk ms' inp)
          else nothing
      end
  end.

(** The variables [st] after what [d] describes. *)
Definition extend (st d : locals) : locals :=
  Locals (Masked (formatted (out st) ++ formatted (out d))
                 (unformatted (out st) ++ unformatted (out d)))
         (inputIndex st + inputIndex d).

(** ** Properties of a result

    The predicates below are used to state what the formatter guarantees;
    none of them belongs to the component. *)

(** [Filled ms f u]: [f] is the part [ms] of the mask with every literal
    kept and every placeholder either filled with a character of its class
    or dropped; [u] lists the characters that fill placeholders, in order. *)
Inductive Filled : list ascii → list ascii → list ascii → Prop :=
| Filled_nil : Filled [] [] []
| Filled_literal (m : ascii) (ms f u : list ascii) :
    includes placeholders m = false →
    Filled ms f u → Filled (m :: ms) (m :: f) u
| Filled_slot (m c : ascii) (ms f u : list ascii) :
    includes placeholders m = true → charMatchesMask c m = true →
    Filled ms f u → Filled (m :: ms) (c :: f) (c :: u)
| Filled_skip (m : ascii) (ms f u : list ascii) :
    includes placeholders m = true →
    Filled ms f u → Filled (m :: ms) f u.

(** Position by position: where the mask has a literal the formatted string
    has that literal, and where it has a placeholder the formatted string has
    a character of the placeholder's class. *)
Definition aligned (mask : list ascii) (r : masked) : Prop :=
  ∀ (i : nat) (c m : ascii),
    formatted r !! i = Some c → mask !! i = Some m →
    if includes placeholders m then charMatchesMask c m = true else c = m.

(** The number of placeholder symbols of a mask. *)
Definition placeholderCount (mask : list ascii) : nat :=
  length (List.filter (includes placeholders) mask).

(** The formatted string ends with the input character consumed last, and is
    empty when no input character was consumed. *)
Definition endsAtLastConsumed (inputValue : list ascii) (st : locals) : Prop :=
  last (formatted (out st))
  = match inputIndex st with
    | 0 => None
    | S k => inputValue !! k
    end.

(** [c] is a literal symbol of [mask]. *)
Definition literalOf (mask : list ascii) (c : ascii) : Prop :=
  c ∈ mask ∧ includes placeholders c = false.

(** No character of [inp] is a literal of [ms]. *)
Definition untyped (ms inp : list ascii) : Prop :=
  Forall (λ c, ¬ literalOf ms c) inp.

(** [d] is the result of a walk of [ms] whose clean value [u] starts the
    input [inp]; a walk of [ms] over [u] places all of [u] and builds the
    formatted string of [d] short of some literals at its end. *)
Definition refills (ms inp : list ascii) (d : locals) : Prop :=
  ∃ rest lits,
    inp = unformatted (out d) ++ rest ∧
    unformatted (out (walk ms (unformatted (out d)))) = unformatted (out d) ∧
    formatted (out d)
    = formatted (out (walk ms (unformatted (out d)))) ++ lits ∧
    Forall (literalOf ms) lits.

(** The postal-code mask of the component's documentation. *)
Definition postalMask : list ascii := chars "a9a 9a9".

(** ** The change and paste handlers

    The handlers act on the state cell of the component, on the input element
    and on the callbacks of the consumer. The callbacks are outside the
    component: a call is recorded with its arguments, in the order of the
    calls; of the event that [onChange] is passed, the value of its target
    is recorded. *)

(** The properties of the component that the handlers read. [None] is
    [undefined] for [value]; a callback is [true] when it is given. *)
Record Props : Type := {
  controlledValue : option (list ascii);
  onChange : bool;
  onMaskedChange : bool
}.

Inductive call : Type :=
| CallOnChange (targetValue : list ascii)
| CallOnMaskedChange (formattedArg unformattedArg : list ascii).

Record ui : Type := Ui {
  value : list ascii;            (* the state cell of [useState] *)
  elementValue : list ascii;     (* the [value] of the input element *)
  defaultPrevented : bool;       (* [preventDefault] was called *)
  calls : list call              (* the calls made, oldest first *)
}.

Definition setValue (v : list ascii) (w : ui) : ui :=
  Ui v (elementValue w) (defaultPrevented w) (calls w).

Definition setElementValue (v : list ascii) (w : ui) : ui :=
  Ui (value w) v (defaultPrevented w) (calls w).

Definition preventDefault (w : ui) : ui :=
  Ui (value w) (elementValue w) true (calls w).

Definition invoke (c : call) (w : ui) : ui :=
  Ui (value w) (elementValue w) (defaultPrevented w) (calls w ++ [c]).

(** [text.split('').filter((char) => /[A-Za-z0-9]/.test(char)).join('')] *)
Definition validChars (text : list ascii) : list ascii :=
  List.filter isAlnum text.

(** [controlledValue !== undefined ? controlledValue : value] *)
Definition displayValue (props : Props) (w : ui) : list ascii :=
  match controlledValue props with
  | Some v => v
  | None => value w
  end.

(** [handleChange], for a change event whose target is the input element. *)
Definition handleChange (mask : list ascii) (props : Props) (w : ui)
  : outcome ui :=
  let inputValue := elementValue w in
  r ← formatToMask mask (validChars inputValue);
  let w :=
    match controlledValue props with
    | None => setValue (formatted r) w
    | Some _ => w
    end in
  let w :=
    if onChange props
    then invoke (CallOnChange (formatted r)) (setElementValue (formatted r) w)
    else w in
  let w :=
    if onMaskedChange props
    then invoke (CallOnMaskedChange (formatted r) (unformatted r)) w
    else w in
  Ok w.

Definition handlePaste (mask : list ascii) (props : Props)
    (pastedText : list ascii) (w : ui) : outcome ui :=
  let w := preventDefault w in
  r ← formatToMask mask (validChars pastedText);
  let w :=
    match controlledValue props with
    | None => setValue (formatted r) w
    | Some _ => w
    end in
  let w := setElementValue (formatted r) w in
  let w :=
    if onChange props
    then invoke (CallOnChange (formatted r)) w
    else w in
  let w :=
    if onMaskedChange props
    then invoke (CallOnMaskedChange (formatted r) (unformatted r)) w
    else w in
  Ok w.

(** ** Further properties of a result *)

(** Every literal of the mask is outside the class [[A-Za-z0-9]], as in the
    masks of the component's documentation. *)
Definition plainLiterals (mask : list ascii) : bool :=
  forallb (λ m, includes placeholders m || negb (isAlnum m)) mask.

(** The input [inp] fits the mask [ms]: its characters are, one after the
    other, in the classes of the placeholders of [ms], there are no more of
    them than placeholders, and none is typed where [ms] has a literal. *)
Fixpoint fits (ms inp : list ascii) : bool :=
  match inp with
  | [] => true
  | c :: inp' =>
      match ms with
      | [] => false
      | m :: ms' =>
          if includes placeholders m
          then charMatchesMask c m && fits ms' inp'
          else negb (Ascii.eqb c m) && fits ms' inp
      end
  end.

(** The mask [ms] with its placeholders replaced by the characters of [inp],
    up to the placeholder that takes the last character. *)
Fixpoint fill (ms inp : list ascii) : list ascii :=
  match inp with
  | [] => []
  | c :: inp' =>
      match ms with
      | [] => []
      | m :: ms' =>
          if includes placeholders m then c :: fill ms' inp'
          else m :: fill ms' inp
      end
  end.

(** ** Where a pass is

    [Reaches mask inputValue maskIndex st]: the loop of [formatToMask], run
    on [inputValue], comes to [maskIndex] with the variables [st], every
    iteration before having run to the end of the body. *)
Inductive Reaches (mask inputValue : list ascii) : nat → locals → Prop :=
| Reaches_start : Reaches mask inputValue 0 initial
| Reaches_next (maskIndex : nat) (st st' : locals) :
    Reaches mask inputValue maskIndex st →
    body mask inputValue maskIndex st = Ok (Next st') →
    Reaches mask inputValue (S maskIndex) st'.

(** The variables [st'] keep what [st] holds: both strings of [st] start
    those of [st'], and the input cursor has not moved back. *)
Definition extends (st st' : locals) : Prop :=
  formatted (out st) `prefix_of` formatted (out st') ∧
  unformatted (out st) `prefix_of` unformatted (out st') ∧
  inputIndex st ≤ inputIndex st'.

(** ** Concrete runs *)

Example date_run :
  formatToMask (chars "99/99/9999") (chars "01152024")
  = Ok (Masked (chars "01/15/2024") (chars "01152024")).
Proof. vm_compute. reflexivity. Qed.

(** ** The loop body, case by case *)

Ltac bsimpl := cbn [mbind outcome_bind andThen].

Section Body.

Variables mask inputValue : list ascii.
Variables (maskIndex : nat) (st : locals) (m : ascii).
Hypothesis at_mask : mask !! maskIndex = Some m.

Lemma body_slot (c : ascii) :
  includes placeholders m = true →
  inputValue !! inputIndex st = Some c →
  body mask inputValue maskIndex st
  = Ok (Next (if charMatchesMask c m then place c st else st)).
Proof using at_mask.
  intros Hm Hc. unfold body, charAt. rewrite at_mask. bsimpl. rewrite Hm.
  apply lookup_lt_Some in Hc as Hlt.
  apply Nat.ltb_lt in Hlt. rewrite Hlt, Hc. bsimpl.
  destruct (charMatchesMask c m); reflexivity.
Qed.

Lemma body_slot_end :
  includes placeholders m = true →
  length inputValue ≤ inputIndex st →
  body mask inputValue maskIndex st = Ok (Break st).
Proof using at_mask.
  intros Hm Hge. unfold body, charAt. rewrite at_mask. bsimpl. rewrite Hm.
  apply Nat.ltb_ge in Hge. rewrite Hge. reflexivity.
Qed.

Lemma body_literal_typed :
  includes placeholders m = false →
  inputValue !! inputIndex st = Some m →
  body mask inputValue maskIndex st = Ok (Next (typed m st)).
Proof using at_mask.
  intros Hm Hc. unfold body, charAt. rewrite at_mask. bsimpl. rewrite Hm.
  apply lookup_lt_Some in Hc as Hlt.
  apply Nat.ltb_lt in Hlt. rewrite Hlt, Hc. bsimpl.
  rewrite Ascii.eqb_refl. reflexivity.
Qed.

Lemma body_literal_other (c : ascii) :
  includes placeholders m = false →
  inputValue !! inputIndex st = Some c →
  c ≠ m →
  body mask inputValue maskIndex st
  = Ok (if lookahead c (drop (S maskIndex) mask)
        then Next (inserted m st) else Break st).
Proof using at_mask.
  intros Hm Hc Hne. unfold body, charAt. rewrite at_mask. bsimpl. rewrite Hm.
  apply lookup_lt_Some in Hc as Hlt.
  apply Nat.ltb_lt in Hlt. rewrite Hlt, Hc. bsimpl.
  apply Ascii.eqb_neq in Hne. rewrite Hne.
  replace (maskIndex + 1) with (S maskIndex) by lia.
  destruct (mask !! S maskIndex) as [n|] eqn:Hn.
  - apply lookup_lt_Some in Hn as Hnlt. apply Nat.ltb_lt in Hnlt.
    rewrite Hnlt. bsimpl. rewrite (drop_S _ _ _ Hn). cbn [lookahead].
    destruct (includes placeholders n); bsimpl; [|reflexivity].
    destruct (charMatchesMask c n); reflexivity.
  - apply lookup_ge_None in Hn as Hnge.
    rewrite (drop_ge _ _ Hnge). apply Nat.ltb_ge in Hnge.
    rewrite Hnge. reflexivity.
Qed.

Lemma body_literal_end :
  includes placeholders m = false →
  length inputValue ≤ inputIndex st →
  body mask inputValue maskIndex st = Ok (Break st).
Proof using at_mask.
  intros Hm Hge. unfold body, charAt. rewrite at_mask. bsimpl. rewrite Hm.
  apply Nat.ltb_ge in Hge. rewrite Hge. reflexivity.
Qed.

End Body.

(** ** [loop] and [walk] agree *)

Lemma extend_nothing (st : locals) : extend st nothing = st.
Proof.
  destruct st as [[f u] k]. unfold extend, nothing. cbn.
  rewrite !app_nil_r, Nat.add_0_r. reflexivity.
Qed.

Lemma extend_place (c : ascii) (st d : locals) :
  extend (place c st) d = extend st (placeFirst c d).
Proof.
  unfold extend, place, placeFirst. cbn.
  rewrite <- !app_assoc, Nat.add_succ_r. reflexivity.
Qed.

Lemma extend_typed (m : ascii) (st d : locals) :
  extend (typed m st) d = extend st (typedFirst m d).
Proof.
  unfold extend, typed, typedFirst. cbn.
  rewrite <- !app_assoc, Nat.add_succ_r. reflexivity.
Qed.

Lemma extend_inserted (m : ascii) (st d : locals) :
  extend (inserted m st) d = extend st (insertedFirst m d).
Proof.
  unfold extend, inserted, insertedFirst. cbn.
  rewrite <- !app_assoc. reflexivity.
Qed.

Lemma walk_no_input (ms : list ascii) : walk ms [] = nothing.
Proof. destruct ms; reflexivity. Qed.

Lemma loop_walk (mask inputValue : list ascii) (fuel : nat) :
  ∀ (maskIndex : nat) (st : locals),
    length mask - maskIndex ≤ fuel →
    inputIndex st ≤ length inputValue →
    loop mask fuel inputValue maskIndex st
    = Ok (extend st (walk (drop maskIndex mask)
                          (drop (inputIndex st) inputValue))).
Proof.
  induction fuel as [|fuel IH]; intros i st Hfuel Hidx; cbn [loop];
    destruct (i <? length mask) eqn:Hi;
    try (apply Nat.ltb_ge in Hi; rewrite (drop_ge _ _ Hi); cbn [walk];
         rewrite extend_nothing; reflexivity).
  - apply Nat.ltb_lt in Hi. lia.
  - apply Nat.ltb_lt in Hi.
    destruct (lookup_lt_is_Some_2 mask i Hi) as [m Hm].
    rewrite (drop_S _ _ _ Hm).
    destruct (inputValue !! inputIndex st) as [c|] eqn:Hc.
    + apply lookup_lt_Some in Hc as Hlt.
      rewrite (drop_S _ _ _ Hc). cbn [walk].
      destruct (includes placeholders m) eqn:Hslot.
      * rewrite (body_slot _ _ _ _ _ Hm c Hslot Hc).
        destruct (charMatchesMask c m); bsimpl.
        -- rewrite IH by (cbn; lia). rewrite extend_place. reflexivity.
        -- rewrite IH by lia. rewrite (drop_S _ _ _ Hc). reflexivity.
      * destruct (Ascii.eqb c m) eqn:Hcm.
        -- apply Ascii.eqb_eq in Hcm. subst c.
           rewrite (body_literal_typed _ _ _ _ _ Hm Hslot Hc). bsimpl.
           rewrite IH by (cbn; lia). rewrite extend_typed. reflexivity.
        -- apply Ascii.eqb_neq in Hcm.
           rewrite (body_literal_other _ _ _ _ _ Hm c Hslot Hc Hcm).
           destruct (lookahead c (drop (S i) mask)); bsimpl.
           ++ rewrite IH by (cbn; lia). rewrite extend_inserted.
              cbn [inserted inputIndex]. rewrite (drop_S _ _ _ Hc).
              reflexivity.
           ++ rewrite extend_nothing. reflexivity.
    + apply lookup_ge_None in Hc.
      rewrite (drop_ge _ _ Hc), walk_no_input, extend_nothing.
      destruct (includes placeholders m) eqn:Hslot.
      * rewrite (body_slot_end _ _ _ _ _ Hm Hslot Hc). reflexivity.
      * rewrite (body_literal_end _ _ _ _ _ Hm Hslot Hc). reflexivity.
Qed.

Lemma formatRun_walk (mask inputValue : list ascii) :
  formatRun mask inputValue = Ok (walk mask inputValue).
Proof.
  unfold formatRun. rewrite loop_walk by (cbn; lia).
  cbn [initial inputIndex]. rewrite !drop_0. f_equal.
  destruct (walk mask inputValue) as [[f u] k]. reflexivity.
Qed.

Lemma formatToMask_walk (mask inputValue : list ascii) :
  formatToMask mask inputValue = Ok (out (walk mask inputValue)).
Proof. unfold formatToMask. rewrite formatRun_walk. reflexivity. Qed.

(** ** Induction along [walk] *)

Lemma walk_ind (P : list ascii → list ascii → locals → Prop) :
  (∀ inp, P [] inp nothing) →
  (∀ m ms, P (m :: ms) [] nothing) →
  (∀ m ms c inp,
      includes placeholders m = true → charMatchesMask c m = true →
      P ms inp (walk ms inp) →
      P (m :: ms) (c :: inp) (placeFirst c (walk ms inp))) →
  (∀ m ms c inp,
      includes placeholders m = true → charMatchesMask c m = false →
      P ms (c :: inp) (walk ms (c :: inp)) →
      P (m :: ms) (c :: inp) (walk ms (c :: inp))) →
  (∀ m ms inp,
      includes placeholders m = false →
      P ms inp (walk ms inp) →
      P (m :: ms) (m :: inp) (typedFirst m (walk ms inp))) →
  (∀ m ms c inp,
      includes placeholders m = false → c ≠ m → lookahead c ms = true →
      P ms (c :: inp) (walk ms (c :: inp)) →
      P (m :: ms) (c :: inp) (insertedFirst m (walk ms (c :: inp)))) →
  (∀ m ms c inp,
      includes placeholders m = false → c ≠ m → lookahead c ms = false →
      P (m :: ms) (c :: inp) nothing) →
  ∀ ms inp, P ms inp (walk ms inp).
Proof.
  intros Hnil Hend Hplace Hskip Htyped Hins Hstop.
  induction ms as [|m ms IH]; intros inp; [apply Hnil|].
  destruct inp as [|c inp]; [apply Hend|]. cbn [walk].
  destruct (includes placeholders m) eqn:Hslot.
  - destruct (charMatchesMask c m) eqn:Hcm; auto.
  - destruct (Ascii.eqb c m) eqn:Heq.
    + apply Ascii.eqb_eq in Heq. subst c. auto.
    + apply Ascii.eqb_neq in Heq.
      destruct (lookahead c ms) eqn:Hla; auto.
Qed.

(** ** What a walk appends and consumes *)

Lemma walk_consumed_le (ms inp : list ascii) :
  inputIndex (walk ms inp) ≤ length inp.
Proof.
  revert ms inp.
  apply (walk_ind (λ ms inp d, inputIndex d ≤ length inp));
    intros; cbn in *; lia.
Qed.

Lemma walk_formatted_le (ms inp : list ascii) :
  length (formatted (out (walk ms inp))) ≤ length ms.
Proof.
  revert ms inp.
  apply (walk_ind (λ ms inp d, length (formatted (out d)) ≤ length ms));
    intros; cbn in *; lia.
Qed.

Lemma walk_unformatted_input (ms inp : list ascii) :
  unformatted (out (walk ms inp)) `sublist_of` inp.
Proof.
  revert ms inp.
  apply (walk_ind (λ ms inp d, unformatted (out d) `sublist_of` inp));
    intros; cbn [unformatted out nothing placeFirst typedFirst insertedFirst];
    first [ apply sublist_nil_l | by apply sublist_skip
          | by apply sublist_cons | assumption ].
Qed.

Lemma walk_unformatted_formatted (ms inp : list ascii) :
  unformatted (out (walk ms inp)) `sublist_of` formatted (out (walk ms inp)).
Proof.
  revert ms inp.
  apply (walk_ind (λ ms inp d,
           unformatted (out d) `sublist_of` formatted (out d)));
    intros; cbn [formatted unformatted out nothing
                 placeFirst typedFirst insertedFirst];
    first [ apply sublist_nil_l | by apply sublist_skip
          | by apply sublist_cons | assumption ].
Qed.

Lemma charMatchesMask_alnum (c m : ascii) :
  charMatchesMask c m = true → isAlnum c = true.
Proof.
  unfold charMatchesMask, isAlnum, isLetter, isDigit.
  repeat case_match; intros Hc; try discriminate;
    rewrite ?Hc, ?orb_true_r; reflexivity.
Qed.

Lemma walk_unformatted_alnum (ms inp : list ascii) :
  Forall (λ c, isAlnum c = true) (unformatted (out (walk ms inp))).
Proof.
  revert ms inp.
  apply (walk_ind (λ ms inp d,
           Forall (λ c, isAlnum c = true) (unformatted (out d))));
    intros; cbn [unformatted out nothing placeFirst typedFirst insertedFirst];
    auto.
  constructor; eauto using charMatchesMask_alnum.
Qed.

Lemma walk_filled (ms inp : list ascii) :
  ∃ n, n ≤ length ms ∧
       Filled (take n ms) (formatted (out (walk ms inp)))
              (unformatted (out (walk ms inp))).
Proof.
  revert ms inp.
  apply (walk_ind (λ ms inp d,
           ∃ n, n ≤ length ms ∧
                Filled (take n ms) (formatted (out d)) (unformatted (out d))));
    intros;
    cbn [formatted unformatted out nothing placeFirst typedFirst insertedFirst];
    try (exists 0; split; [lia | rewrite take_0; constructor]);
    match goal with H : ∃ _, _ |- _ => destruct H as (n & Hn & HF) end;
    exists (S n); (split; [cbn; lia|]); cbn [take].
  - by apply Filled_slot.
  - by apply Filled_skip.
  - by apply Filled_literal.
  - by apply Filled_literal.
Qed.

Lemma Filled_length (ms f u : list ascii) :
  Filled ms f u → length f ≤ length ms.
Proof. induction 1; cbn; lia. Qed.

(** A part of the mask that was filled without dropping a placeholder agrees
    with the formatted string position by position. *)
Lemma Filled_aligned (ms f u : list ascii) :
  Filled ms f u → length f = length ms →
  ∀ (i : nat) (c m : ascii),
    f !! i = Some c → ms !! i = Some m →
    if includes placeholders m then charMatchesMask c m = true else c = m.
Proof.
  induction 1 as [|m0 ms f u Hlit HF IH|m0 c0 ms f u Hslot Hcm HF IH
                 |m0 ms f u Hslot HF IH]; intros Hlen i c m Hc Hm.
  - discriminate.
  - destruct i as [|i]; cbn in *.
    + injection Hc as <-. injection Hm as <-. by rewrite Hlit.
    + apply (IH ltac:(lia) i); assumption.
  - destruct i as [|i]; cbn in *.
    + injection Hc as <-. injection Hm as <-. by rewrite Hslot.
    + apply (IH ltac:(lia) i); assumption.
  - apply Filled_length in HF. cbn in Hlen. lia.
Qed.

Lemma last_cons_same {A : Type} (x : A) (l k : list A) :
  last l = last k → (k = [] → l = []) → last (x :: l) = last (x :: k).
Proof.
  intros Hlast Hnil. destruct k as [|b k].
  - rewrite (Hnil eq_refl). reflexivity.
  - destruct l as [|a l]; [|exact Hlast].
    symmetry in Hlast. apply last_None in Hlast. discriminate.
Qed.

Lemma walk_last (ms inp : list ascii) :
  inputIndex (walk ms inp) = length inp →
  last (formatted (out (walk ms inp))) = last inp.
Proof.
  revert ms inp.
  apply (walk_ind (λ ms inp d,
           inputIndex d = length inp → last (formatted (out d)) = last inp));
    cbn [formatted out nothing placeFirst typedFirst insertedFirst
         inputIndex length].
  - intros [|c inp] Hlen; [reflexivity | discriminate].
  - reflexivity.
  - intros m ms c inp _ _ IH Hlen.
    apply last_cons_same; [apply IH; lia|]. intros ->. by rewrite walk_no_input.
  - auto.
  - intros m ms inp _ IH Hlen.
    apply last_cons_same; [apply IH; lia|]. intros ->. by rewrite walk_no_input.
  - intros m ms c inp _ _ _ IH Hlen. specialize (IH Hlen).
    destruct (formatted (out (walk ms (c :: inp)))) as [|a l]; [|exact IH].
    symmetry in IH. apply last_None in IH. discriminate.
  - discriminate.
Qed.

(** ** Formatting the clean value again *)

Lemma literalOf_cons (m c : ascii) (ms : list ascii) :
  literalOf ms c → literalOf (m :: ms) c.
Proof. intros [Hin Hlit]. split; [by apply list_elem_of_further | exact Hlit]. Qed.

Lemma literalOf_here (m : ascii) (ms : list ascii) :
  includes placeholders m = false → literalOf (m :: ms) m.
Proof. intros Hlit. split; [apply list_elem_of_here | exact Hlit]. Qed.

Lemma literals_cons (m : ascii) (ms l : list ascii) :
  Forall (literalOf ms) l → Forall (literalOf (m :: ms)) l.
Proof.
  intros H. eapply Forall_impl; [exact H|]. intros c. apply literalOf_cons.
Qed.

(** When nothing was placed, the formatted string holds literals only. *)
Lemma walk_only_literals (ms inp : list ascii) :
  unformatted (out (walk ms inp)) = [] →
  Forall (literalOf ms) (formatted (out (walk ms inp))).
Proof.
  revert ms inp.
  apply (walk_ind (λ ms inp d,
           unformatted (out d) = [] → Forall (literalOf ms) (formatted (out d))));
    cbn [formatted unformatted out nothing placeFirst typedFirst insertedFirst];
    try (intros; by constructor).
  - intros m ms c inp _ _ IH Hu.
    apply literals_cons. by apply IH.
  - intros m ms inp Hlit IH Hu. constructor; [by apply literalOf_here|].
    apply literals_cons. by apply IH.
  - intros m ms c inp Hlit _ _ IH Hu. constructor; [by apply literalOf_here|].
    apply literals_cons. by apply IH.
Qed.

Lemma untyped_tail_mask (m : ascii) (ms inp : list ascii) :
  untyped (m :: ms) inp → untyped ms inp.
Proof.
  intros H. eapply Forall_impl; [exact H|].
  intros c Hc Hlit. apply Hc. by apply literalOf_cons.
Qed.

Lemma untyped_tail_input (c : ascii) (ms inp : list ascii) :
  untyped ms (c :: inp) → untyped ms inp.
Proof. intros H. by apply Forall_inv_tail in H. Qed.

Lemma refills_nothing (ms inp : list ascii) : refills ms inp nothing.
Proof.
  exists inp, []. cbn [nothing out unformatted formatted].
  rewrite walk_no_input. cbn. repeat split. constructor.
Qed.

Lemma walk_refills (ms inp : list ascii) :
  untyped ms inp → refills ms inp (walk ms inp).
Proof.
  revert ms inp.
  apply (walk_ind (λ ms inp d, untyped ms inp → refills ms inp d));
    try (intros; apply refills_nothing).
  - (* a placeholder is filled *)
    intros m ms c inp Hslot Hcm IH Hun.
    destruct IH as (rest & lits & Hinp & Hu & Hf & Hlits).
    { by eapply untyped_tail_mask, untyped_tail_input. }
    exists rest, lits.
    cbn [placeFirst out unformatted formatted walk]. rewrite Hslot, Hcm.
    cbn [placeFirst out unformatted formatted]. rewrite Hu.
    split_and!; [by rewrite Hinp at 1 | done | by rewrite Hf
                | by apply literals_cons].
  - (* a placeholder is dropped *)
    intros m ms c inp Hslot Hcm IH Hun.
    destruct IH as (rest & lits & Hinp & Hu & Hf & Hlits).
    { by eapply untyped_tail_mask. }
    unfold refills.
    destruct (unformatted (out (walk ms (c :: inp)))) as [|c' u'] eqn:Hclean.
    + exists (c :: inp), (formatted (out (walk ms (c :: inp)))).
      rewrite walk_no_input.
      split_and!; [done | done | done |].
      by apply literals_cons, walk_only_literals.
    + injection Hinp as <- Hinp.
      exists rest, lits. cbn [walk]. rewrite Hslot, Hcm, Hu.
      split_and!; [by rewrite Hinp at 1 | done | done
                  | by apply literals_cons].
  - (* a typed literal: excluded *)
    intros m ms inp Hlit _ Hun. apply Forall_inv in Hun.
    destruct Hun. by apply literalOf_here.
  - (* a literal is inserted *)
    intros m ms c inp Hlit Hne Hla IH Hun.
    destruct IH as (rest & lits & Hinp & Hu & Hf & Hlits).
    { by eapply untyped_tail_mask. }
    unfold refills. cbn [insertedFirst out unformatted formatted].
    destruct (unformatted (out (walk ms (c :: inp)))) as [|c' u'] eqn:Hclean.
    + exists (c :: inp), (m :: formatted (out (walk ms (c :: inp)))).
      rewrite walk_no_input.
      split_and!; [done | done | done |].
      constructor; [by apply literalOf_here|].
      by apply literals_cons, walk_only_literals.
    + injection Hinp as <- Hinp.
      exists rest, lits. cbn [walk]. rewrite Hlit.
      apply Ascii.eqb_neq in Hne. rewrite Hne, Hla.
      cbn [insertedFirst out unformatted formatted]. rewrite Hu.
      split_and!; [by rewrite Hinp at 1 | done | by rewrite Hf
                  | by apply literals_cons].
Qed.

(** The clean value is never longer than the number of characters
    consumed. *)
Lemma walk_consumed_placed (ms inp : list ascii) :
  length (unformatted (out (walk ms inp))) ≤ inputIndex (walk ms inp).
Proof.
  revert ms inp.
  apply (walk_ind (λ ms inp d, length (unformatted (out d)) ≤ inputIndex d));
    intros; cbn in *; lia.
Qed.

(** The same when the walk typed no literal, that is when every character
    that it consumed filled a placeholder. *)
Lemma walk_refills_placed (ms inp : list ascii) :
  inputIndex (walk ms inp) = length (unformatted (out (walk ms inp))) →
  refills ms inp (walk ms inp).
Proof.
  revert ms inp.
  apply (walk_ind (λ ms inp d,
           inputIndex d = length (unformatted (out d)) → refills ms inp d));
    try (intros; apply refills_nothing).
  - (* a placeholder is filled *)
    intros m ms c inp Hslot Hcm IH Hall.
    cbn [placeFirst out unformatted inputIndex length] in Hall.
    destruct IH as (rest & lits & Hinp & Hu & Hf & Hlits); [lia|].
    exists rest, lits.
    cbn [placeFirst out unformatted formatted walk]. rewrite Hslot, Hcm.
    cbn [placeFirst out unformatted formatted]. rewrite Hu.
    split_and!; [by rewrite Hinp at 1 | done | by rewrite Hf
                | by apply literals_cons].
  - (* a placeholder is dropped *)
    intros m ms c inp Hslot Hcm IH Hall.
    destruct (IH Hall) as (rest & lits & Hinp & Hu & Hf & Hlits).
    unfold refills.
    destruct (unformatted (out (walk ms (c :: inp)))) as [|c' u'] eqn:Hclean.
    + exists (c :: inp), (formatted (out (walk ms (c :: inp)))).
      rewrite walk_no_input.
      split_and!; [done | done | done |].
      by apply literals_cons, walk_only_literals.
    + injection Hinp as <- Hinp.
      exists rest, lits. cbn [walk]. rewrite Hslot, Hcm, Hu.
      split_and!; [by rewrite Hinp at 1 | done | done
                  | by apply literals_cons].
  - (* a typed literal: excluded, the cursor is ahead of the clean value *)
    intros m ms inp Hlit _ Hall.
    cbn [typedFirst out unformatted inputIndex] in Hall.
    pose proof (walk_consumed_placed ms inp). lia.
  - (* a literal is inserted *)
    intros m ms c inp Hlit Hne Hla IH Hall.
    cbn [insertedFirst out unformatted inputIndex] in Hall.
    destruct (IH Hall) as (rest & lits & Hinp & Hu & Hf & Hlits).
    unfold refills. cbn [insertedFirst out unformatted formatted].
    destruct (unformatted (out (walk ms (c :: inp)))) as [|c' u'] eqn:Hclean.
    + exists (c :: inp), (m :: formatted (out (walk ms (c :: inp)))).
      rewrite walk_no_input.
      split_and!; [done | done | done |].
      constructor; [by apply literalOf_here|].
      by apply literals_cons, walk_only_literals.
    + injection Hinp as <- Hinp.
      exists rest, lits. cbn [walk]. rewrite Hlit.
      apply Ascii.eqb_neq in Hne. rewrite Hne, Hla.
      cbn [insertedFirst out unformatted formatted]. rewrite Hu.
      split_and!; [by rewrite Hinp at 1 | done | by rewrite Hf
                  | by apply literals_cons].
Qed.

(** ** Every index is in range, and the loop ends *)

Lemma body_returns (mask inputValue : list ascii) (maskIndex : nat)
    (st : locals) :
  maskIndex < length mask →
  ∃ r, body mask inputValue maskIndex st = Ok r.
Proof.
  intros Hi. destruct (lookup_lt_is_Some_2 mask maskIndex Hi) as [m Hm].
  destruct (inputValue !! inputIndex st) as [c|] eqn:Hc;
    destruct (includes placeholders m) eqn:Hslot.
  - rewrite (body_slot _ _ _ _ _ Hm c Hslot Hc). eauto.
  - destruct (decide (c = m)) as [->|Hne].
    + rewrite (body_literal_typed _ _ _ _ _ Hm Hslot Hc). eauto.
    + rewrite (body_literal_other _ _ _ _ _ Hm c Hslot Hc Hne). eauto.
  - apply lookup_ge_None in Hc.
    rewrite (body_slot_end _ _ _ _ _ Hm Hslot Hc). eauto.
  - apply lookup_ge_None in Hc.
    rewrite (body_literal_end _ _ _ _ _ Hm Hslot Hc). eauto.
Qed.

(** Once the input is used up, an iteration changes nothing and ends the
    loop. *)
Lemma loop_input_used_up (mask inputValue : list ascii) (fuel maskIndex : nat)
    (st : locals) :
  length inputValue ≤ inputIndex st →
  loop mask (S fuel) inputValue maskIndex st = Ok st.
Proof.
  intros Hge. cbn [loop].
  destruct (maskIndex <? length mask) eqn:Hi; [|reflexivity].
  apply Nat.ltb_lt in Hi.
  destruct (lookup_lt_is_Some_2 mask maskIndex Hi) as [m Hm].
  destruct (includes placeholders m) eqn:Hslot.
  - rewrite (body_slot_end _ _ _ _ _ Hm Hslot Hge). reflexivity.
  - rewrite (body_literal_end _ _ _ _ _ Hm Hslot Hge). reflexivity.
Qed.

(** ** From an iteration to the result of the pass *)

Lemma extends_refl (st : locals) : extends st st.
Proof. unfold extends. split_and!; [done | done | lia]. Qed.

Lemma extends_trans (st1 st2 st3 : locals) :
  extends st1 st2 → extends st2 st3 → extends st1 st3.
Proof.
  intros (Hf1 & Hu1 & Hi1) (Hf2 & Hu2 & Hi2). unfold extends. split_and!.
  - by etrans.
  - by etrans.
  - lia.
Qed.

Lemma extends_place (c : ascii) (st : locals) : extends st (place c st).
Proof.
  unfold extends, place. cbn. split_and!; [by apply prefix_app_r..| lia].
Qed.

Lemma extends_typed (m : ascii) (st : locals) : extends st (typed m st).
Proof.
  unfold extends, typed. cbn. split_and!; [by apply prefix_app_r | done | lia].
Qed.

Lemma extends_inserted (m : ascii) (st : locals) : extends st (inserted m st).
Proof.
  unfold extends, inserted. cbn.
  split_and!; [by apply prefix_app_r | done | lia].
Qed.

Lemma body_in_mask (mask inputValue : list ascii) (maskIndex : nat)
    (st : locals) (r : flow) :
  body mask inputValue maskIndex st = Ok r → maskIndex < length mask.
Proof.
  unfold body, charAt. destruct (mask !! maskIndex) as [m|] eqn:Hm.
  - intros _. by eapply lookup_lt_Some.
  - discriminate.
Qed.

(** An iteration only appends and only moves the cursor forward. *)
Lemma body_extends (mask inputValue : list ascii) (maskIndex : nat)
    (st : locals) (r : flow) :
  body mask inputValue maskIndex st = Ok r →
  extends st match r with Next st' => st' | Break st' => st' end.
Proof.
  intros Hbody. pose proof (body_in_mask _ _ _ _ _ Hbody) as Hi.
  destruct (lookup_lt_is_Some_2 mask maskIndex Hi) as [m Hm].
  destruct (inputValue !! inputIndex st) as [c|] eqn:Hc;
    destruct (includes placeholders m) eqn:Hslot.
  - rewrite (body_slot _ _ _ _ _ Hm c Hslot Hc) in Hbody.
    injection Hbody as <-.
    destruct (charMatchesMask c m); [apply extends_place | apply extends_refl].
  - destruct (decide (c = m)) as [->|Hne].
    + rewrite (body_literal_typed _ _ _ _ _ Hm Hslot Hc) in Hbody.
      injection Hbody as <-. apply extends_typed.
    + rewrite (body_literal_other _ _ _ _ _ Hm c Hslot Hc Hne) in Hbody.
      injection Hbody as <-.
      destruct (lookahead c (drop (S maskIndex) mask));
        [apply extends_inserted | apply extends_refl].
  - apply lookup_ge_None in Hc.
    rewrite (body_slot_end _ _ _ _ _ Hm Hslot Hc) in Hbody.
    injection Hbody as <-. apply extends_refl.
  - apply lookup_ge_None in Hc.
    rewrite (body_literal_end _ _ _ _ _ Hm Hslot Hc) in Hbody.
    injection Hbody as <-. apply extends_refl.
Qed.

(** From any iteration on, the loop ends within the iterations that are left
    and its result keeps what the variables hold. *)
Lemma loop_extends (mask inputValue : list ascii) (fuel : nat) :
  ∀ (maskIndex : nat) (st : locals),
    length mask - maskIndex ≤ fuel →
    ∃ stf, loop mask fuel inputValue maskIndex st = Ok stf ∧ extends st stf.
Proof.
  induction fuel as [|fuel IH]; intros i st Hfuel; cbn [loop];
    destruct (i <? length mask) eqn:Hi;
    try (exists st; split; [reflexivity | apply extends_refl]).
  - apply Nat.ltb_lt in Hi. lia.
  - apply Nat.ltb_lt in Hi.
    destruct (body_returns mask inputValue i st Hi) as [r Hr].
    rewrite Hr. bsimpl. pose proof (body_extends _ _ _ _ _ Hr) as Hext.
    destruct r as [st'|st'].
    + destruct (IH (S i) st' ltac:(lia)) as (stf & Hloop & Hext').
      exists stf. split; [exact Hloop | by eapply extends_trans].
    + by exists st'.
Qed.

(** The pass, seen from an iteration that it reaches. *)
Lemma reaches_formatRun (mask inputValue : list ascii) (maskIndex : nat)
    (st : locals) :
  Reaches mask inputValue maskIndex st →
  formatRun mask inputValue
  = loop mask (length mask - maskIndex) inputValue maskIndex st.
Proof.
  induction 1 as [|i st st' _ IH Hbody].
  - unfold formatRun. by rewrite Nat.sub_0_r.
  - rewrite IH. pose proof (body_in_mask _ _ _ _ _ Hbody) as Hi.
    replace (length mask - i) with (S (length mask - S i)) by lia.
    cbn [loop]. apply Nat.ltb_lt in Hi. by rewrite Hi, Hbody.
Qed.

(** An iteration that runs to the end of its body: the pass goes on from the
    next position with the variables that the body leaves. *)
Lemma reaches_goes_on (mask inputValue : list ascii) (maskIndex : nat)
    (st st' : locals) :
  Reaches mask inputValue maskIndex st →
  body mask inputValue maskIndex st = Ok (Next st') →
  Reaches mask inputValue (S maskIndex) st' ∧
  formatRun mask inputValue
  = loop mask (length mask - S maskIndex) inputValue (S maskIndex) st' ∧
  ∃ stf, formatRun mask inputValue = Ok stf ∧
         formatToMask mask inputValue = Ok (out stf) ∧
         extends st' stf.
Proof.
  intros Hreach Hbody.
  assert (Reaches mask inputValue (S maskIndex) st') as Hnext
    by by eapply Reaches_next.
  pose proof (reaches_formatRun _ _ _ _ Hnext) as Hrun.
  split_and!; [exact Hnext | exact Hrun |].
  destruct (loop_extends mask inputValue (length mask - S maskIndex)
              (S maskIndex) st' ltac:(lia)) as (stf & Hloop & Hext).
  exists stf. rewrite Hloop in Hrun.
  split_and!; [exact Hrun | | exact Hext].
  unfold formatToMask. by rewrite Hrun.
Qed.

(** An iteration that breaks: the variables as they are make up the
    result. *)
Lemma reaches_stops (mask inputValue : list ascii) (maskIndex : nat)
    (st st' : locals) :
  Reaches mask inputValue maskIndex st →
  body mask inputValue maskIndex st = Ok (Break st') →
  formatRun mask inputValue = Ok st' ∧
  formatToMask mask inputValue = Ok (out st').
Proof.
  intros Hreach Hbody.
  pose proof (reaches_formatRun _ _ _ _ Hreach) as Hrun.
  pose proof (body_in_mask _ _ _ _ _ Hbody) as Hi.
  replace (length mask - maskIndex) with (S (length mask - S maskIndex))
    in Hrun by lia.
  cbn [loop] in Hrun. apply Nat.ltb_lt in Hi. rewrite Hi, Hbody in Hrun.
  split; [exact Hrun|]. unfold formatToMask. by rewrite Hrun.
Qed.

(** ** Character classes *)

Lemma digit_not_letter (c : ascii) : isDigit c = true → isLetter c = false.
Proof.
  unfold isDigit, isLetter, inRange.
  change (code "0") with 48%N. change (code "9") with 57%N.
  change (code "A") with 65%N. change (code "Z") with 90%N.
  change (code "a") with 97%N. change (code "z") with 122%N.
  intros H. apply andb_true_iff in H as [_ H]. apply N.leb_le in H.
  apply orb_false_iff. split; apply andb_false_iff; left; apply N.leb_gt; lia.
Qed.

(** ** The key-down handler, characterised *)

Lemma handleKeyDown_suppresses (e : KeyboardEvent) :
  handleKeyDown e = true ↔
  ctrlKey e = false ∧ metaKey e = false ∧ altKey e = false ∧
  shiftKey e = false ∧ (key e ∉ allowedKeys) ∧
  Forall (λ c, isAlnum c = false) (chars (key e)).
Proof.
  unfold handleKeyDown, testAlnum.
  destruct (ctrlKey e), (metaKey e), (altKey e), (shiftKey e); cbn [orb];
    try (split; [discriminate | intros (? & ? & ? & ? & _); discriminate]).
  destruct (existsb (String.eqb (key e)) allowedKeys) eqn:Hallowed.
  - split; [discriminate|]. intros (_ & _ & _ & _ & Hnot & _).
    exfalso. apply Hnot. apply existsb_exists in Hallowed as (k & Hk & Heq).
    apply String.eqb_eq in Heq. subst k. by apply list_elem_of_In.
  - destruct (existsb isAlnum (chars (key e))) eqn:Hal.
    + split; [discriminate|]. intros (_ & _ & _ & _ & _ & Hall).
      apply existsb_exists in Hal as (c & Hc & Hcl).
      rewrite Forall_forall in Hall. apply list_elem_of_In in Hc.
      rewrite (Hall c Hc) in Hcl. discriminate.
    + split; [|reflexivity]. intros _. split_and!; try reflexivity.
      * intros Hin. apply list_elem_of_In in Hin.
        assert (existsb (String.eqb (key e)) allowedKeys = true) as Hex.
        { apply existsb_exists. exists (key e). split; [exact Hin|].
          apply String.eqb_refl. }
        congruence.
      * apply Forall_forall. intros c Hc. apply list_elem_of_In in Hc.
        destruct (isAlnum c) eqn:Hcl; [|reflexivity].
        assert (existsb isAlnum (chars (key e)) = true) as Hex.
        { apply existsb_exists. eauto. }
        congruence.
Qed.

(** * The specification's claims *)

(** ** Structure of a formatting pass *)

(** C5. When the pass is at a placeholder position with a current input
    character: if the character is not in the placeholder's class, the
    variables are left as they are (nothing is appended, the input cursor
    stays); if it is in the class, it is appended to both strings and the
    input cursor advances by one. In both cases the pass goes on from the
    next mask position with these variables, and its result, which is the
    result of [formatToMask], keeps what they hold. *)
Theorem placeholder_step (mask inputValue : list ascii) (maskIndex : nat)
    (st : locals) (m c : ascii) :
  Reaches mask inputValue maskIndex st →
  mask !! maskIndex = Some m →
  includes placeholders m = true →
  inputValue !! inputIndex st = Some c →
  let st' :=
    if charMatchesMask c m
    then Locals (Masked (formatted (out st) ++ [c])
                        (unformatted (out st) ++ [c]))
                (inputIndex st + 1)
    else st in
  body mask inputValue maskIndex st = Ok (Next st') ∧
  Reaches mask inputValue (S maskIndex) st' ∧
  formatRun mask inputValue
  = loop mask (length mask - S maskIndex) inputValue (S maskIndex) st' ∧
  ∃ stf, formatRun mask inputValue = Ok stf ∧
         formatToMask mask inputValue = Ok (out stf) ∧
         extends st' stf.
Proof.
  intros Hreach Hm Hslot Hc st'.
  assert (body mask inputValue maskIndex st = Ok (Next st')) as Hbody.
  { rewrite (body_slot _ _ _ _ _ Hm c Hslot Hc). subst st'.
    destruct (charMatchesMask c m); [|reflexivity].
    unfold place. by rewrite Nat.add_1_r. }
  split; [exact Hbody|]. by apply reaches_goes_on with (st := st).
Qed.

Lemma placeholder_step_witness :
  (∃ stf, formatToMask (chars "a9") (chars "1") = Ok (out stf) ∧
          extends initial stf) ∧
  (∃ stf, formatToMask (chars "a9") (chars "1") = Ok (out stf) ∧
          extends (Locals (Masked (chars "1") (chars "1")) 1) stf).
Proof.
  assert (Reaches (chars "a9") (chars "1") 1 initial) as Hone
    by exact (Reaches_next (chars "a9") (chars "1") 0 initial initial
                (Reaches_start _ _) eq_refl).
  split.
  - destruct (placeholder_step (chars "a9") (chars "1") 0 initial "a" "1"
                (Reaches_start _ _) eq_refl eq_refl eq_refl)
      as (_ & _ & _ & stf & _ & Hfmt & Hext).
    by exists stf.
  - destruct (placeholder_step (chars "a9") (chars "1") 1 initial "9" "1"
                Hone eq_refl eq_refl eq_refl)
      as (_ & _ & _ & stf & _ & Hfmt & Hext).
    by exists stf.
Defined.

(** C6. When the pass is at a literal position with a current input
    character that differs from the literal: if the next mask position is a
    placeholder whose class holds the character, the literal is appended to
    the formatted string and no input is consumed; if the next mask position
    is a literal or the mask ends, the literal is appended as well; in these
    cases the pass goes on from the next mask position and its result, which
    is the result of [formatToMask], keeps the literal. If the next mask
    position is a placeholder whose class does not hold the character, the
    pass stops and the variables as they are make up the result of
    [formatToMask]. *)
Theorem literal_step (mask inputValue : list ascii) (maskIndex : nat)
    (st : locals) (m c : ascii) :
  Reaches mask inputValue maskIndex st →
  mask !! maskIndex = Some m →
  includes placeholders m = false →
  inputValue !! inputIndex st = Some c →
  c ≠ m →
  let appended :=
    Locals (Masked (formatted (out st) ++ [m]) (unformatted (out st)))
           (inputIndex st) in
  let goesOn :=
    body mask inputValue maskIndex st = Ok (Next appended) ∧
    Reaches mask inputValue (S maskIndex) appended ∧
    formatRun mask inputValue
    = loop mask (length mask - S maskIndex) inputValue (S maskIndex)
        appended ∧
    ∃ stf, formatRun mask inputValue = Ok stf ∧
           formatToMask mask inputValue = Ok (out stf) ∧
           extends appended stf in
  (∀ n, mask !! (maskIndex + 1) = Some n →
        includes placeholders n = true → charMatchesMask c n = true →
        goesOn) ∧
  (∀ n, mask !! (maskIndex + 1) = Some n →
        includes placeholders n = false →
        goesOn) ∧
  (mask !! (maskIndex + 1) = None → goesOn) ∧
  (∀ n, mask !! (maskIndex + 1) = Some n →
        includes placeholders n = true → charMatchesMask c n = false →
        body mask inputValue maskIndex st = Ok (Break st) ∧
        formatRun mask inputValue = Ok st ∧
        formatToMask mask inputValue = Ok (out st)).
Proof.
  intros Hreach Hm Hlit Hc Hne appended goesOn.
  pose proof (body_literal_other _ _ _ _ _ Hm c Hlit Hc Hne) as Hbody.
  assert (body mask inputValue maskIndex st = Ok (Next appended) → goesOn)
    as Hgo.
  { intros Hnext. split; [exact Hnext|].
    by apply reaches_goes_on with (st := st). }
  rewrite Nat.add_1_r. split_and!.
  - intros n Hn Hslot Hcm. apply Hgo. rewrite Hbody, (drop_S _ _ _ Hn).
    cbn [lookahead]. by rewrite Hslot, Hcm.
  - intros n Hn Hslot. apply Hgo. rewrite Hbody, (drop_S _ _ _ Hn).
    cbn [lookahead]. by rewrite Hslot.
  - intros Hn. apply Hgo. apply lookup_ge_None in Hn.
    by rewrite Hbody, (drop_ge _ _ Hn).
  - intros n Hn Hslot Hcm. rewrite (drop_S _ _ _ Hn) in Hbody.
    cbn [lookahead] in Hbody. rewrite Hslot, Hcm in Hbody.
    split; [exact Hbody|]. by apply reaches_stops with (maskIndex := maskIndex)
                                                      (st := st).
Qed.

Lemma literal_step_witness :
  (∃ stf, formatToMask (chars "9-9") (chars "12") = Ok (out stf) ∧
          extends (Locals (Masked (chars "1-") (chars "1")) 1) stf) ∧
  (∃ stf, formatToMask (chars "--") (chars "5") = Ok (out stf) ∧
          extends (Locals (Masked (chars "-") []) 0) stf) ∧
  (∃ stf, formatToMask (chars "9-") (chars "12") = Ok (out stf) ∧
          extends (Locals (Masked (chars "1-") (chars "1")) 1) stf) ∧
  formatToMask (chars "9-9") (chars "1x") = Ok (Masked (chars "1") (chars "1")).
Proof.
  assert (∀ mask inputValue,
            body mask inputValue 0 initial
            = Ok (Next (Locals (Masked (chars "1") (chars "1")) 1)) →
            Reaches mask inputValue 1
              (Locals (Masked (chars "1") (chars "1")) 1)) as Hone.
  { intros mask inputValue Hbody.
    exact (Reaches_next _ _ 0 initial _ (Reaches_start _ _) Hbody). }
  pose proof (literal_step (chars "9-9") (chars "12") 1 _ "-" "2"
                (Hone (chars "9-9") (chars "12") eq_refl) eq_refl eq_refl eq_refl
                ltac:(discriminate)) as Hslot.
  pose proof (literal_step (chars "--") (chars "5") 0 initial "-" "5"
                (Reaches_start _ _) eq_refl eq_refl eq_refl
                ltac:(discriminate)) as Hlit.
  pose proof (literal_step (chars "9-") (chars "12") 1 _ "-" "2"
                (Hone (chars "9-") (chars "12") eq_refl) eq_refl eq_refl eq_refl
                ltac:(discriminate)) as Hlast.
  pose proof (literal_step (chars "9-9") (chars "1x") 1 _ "-" "x"
                (Hone (chars "9-9") (chars "1x") eq_refl) eq_refl eq_refl eq_refl
                ltac:(discriminate)) as Hstop.
  cbv zeta in Hslot, Hlit, Hlast, Hstop.
  destruct Hslot as (Hslot & _), Hlit as (_ & Hlit & _),
    Hlast as (_ & _ & Hlast & _), Hstop as (_ & _ & _ & Hstop).
  split_and!.
  - destruct (Hslot "9" eq_refl eq_refl eq_refl)
      as (_ & _ & _ & stf & _ & Hfmt & Hext).
    by exists stf.
  - destruct (Hlit "-" eq_refl eq_refl)
      as (_ & _ & _ & stf & _ & Hfmt & Hext).
    by exists stf.
  - destruct (Hlast eq_refl) as (_ & _ & _ & stf & _ & Hfmt & Hext).
    by exists stf.
  - exact (proj2 (proj2 (Hstop "9" eq_refl eq_refl eq_refl))).
Defined.

(** ** Results of a formatting pass *)

(** C7. For the mask "(999) 999-9999" and the raw input "5555555555" the
    formatted string is "(555) 555-5555" and the clean value is
    "5555555555". *)
Theorem phone_number_formatted :
  formatToMask (chars "(999) 999-9999") (chars "5555555555")
  = Ok {| formatted := chars "(555) 555-5555";
          unformatted := chars "5555555555" |}.
Proof. vm_compute. reflexivity. Qed.

(** C9. Whatever the mask (a mask that ends in a literal included) and
    whatever the raw input, the formatter returns a pair of strings: the loop
    ends within the iterations that the mask allows, every iteration indexes
    the mask and the input inside their bounds, the formatted string is no
    longer than the mask, and only characters of a placeholder class reach
    the clean value. *)
Theorem formatToMask_total (mask rawInput : list ascii) :
  (∀ (maskIndex : nat) (st : locals),
      maskIndex < length mask →
      ∃ r, body mask rawInput maskIndex st = Ok r) ∧
  ∃ r, formatToMask mask rawInput = Ok r ∧
       length (formatted r) ≤ length mask ∧
       Forall (λ c, isAlnum c = true) (unformatted r).
Proof.
  split; [intros i st; apply body_returns|].
  exists (out (walk mask rawInput)). split_and!.
  - apply formatToMask_walk.
  - apply walk_formatted_le.
  - apply walk_unformatted_alnum.
Qed.

Lemma formatToMask_total_witness :
  ∃ r, formatToMask (chars "99-") (chars "12345x") = Ok r ∧
       length (formatted r) ≤ 3.
Proof.
  destruct (formatToMask_total (chars "99-") (chars "12345x"))
    as (_ & r & Hr & Hlen & _).
  exists r. split; [exact Hr | exact Hlen].
Defined.

(** C10. The clean value is a subsequence of the raw input: its characters
    occur in the raw input in the same order, and it is no longer than the
    raw input. *)
Theorem unformatted_subsequence_of_input (mask rawInput : list ascii) :
  ∃ r, formatToMask mask rawInput = Ok r ∧
       unformatted r `sublist_of` rawInput ∧
       (∀ c, c ∈ unformatted r → c ∈ rawInput) ∧
       length (unformatted r) ≤ length rawInput.
Proof.
  exists (out (walk mask rawInput)).
  pose proof (walk_unformatted_input mask rawInput) as Hsub.
  split_and!.
  - apply formatToMask_walk.
  - exact Hsub.
  - intros c Hc. by eapply sublist_subseteq.
  - by apply sublist_length.
Qed.

(** C2, as the code has it. The clean value is a subsequence of the formatted
    string, and the formatted string is a leading part of the mask, up to
    where formatting stopped, in which every literal is kept and every
    placeholder is either filled with a consumed character of its class or
    dropped. When no placeholder of that part was dropped, the formatted
    string is as long as the part and agrees with the mask position by
    position. *)
Theorem formatted_fills_mask (mask rawInput : list ascii) :
  ∃ r, formatToMask mask rawInput = Ok r ∧
       unformatted r `sublist_of` formatted r ∧
       ∃ n, n ≤ length mask ∧
            Filled (take n mask) (formatted r) (unformatted r) ∧
            (length (formatted r) = n → aligned mask r).
Proof.
  exists (out (walk mask rawInput)).
  destruct (walk_filled mask rawInput) as (n & Hn & HF).
  split_and!.
  - apply formatToMask_walk.
  - apply walk_unformatted_formatted.
  - exists n. split_and!; [exact Hn | exact HF |].
    intros Hlen i c m Hc Hm.
    apply (Filled_aligned _ _ _ HF) with (i := i); [|exact Hc|].
    + rewrite length_take. lia.
    + apply lookup_lt_Some in Hc. rewrite lookup_take_lt by lia. exact Hm.
Qed.

Lemma formatted_fills_mask_witness :
  ∃ r, formatToMask (chars "99/99") (chars "0115") = Ok r ∧
       aligned (chars "99/99") r.
Proof.
  destruct (formatted_fills_mask (chars "99/99") (chars "0115"))
    as (r & Hr & _ & n & Hn & HF & Hal).
  exists r. split; [exact Hr|]. apply Hal.
  vm_compute in Hr. injection Hr as <-.
  apply Filled_length in HF as Hle. rewrite length_take in Hle.
  cbn in Hle, Hn |- *. lia.
Defined.

(** C2, as stated, fails: for the mask "a-9" and the input "1" the first
    placeholder is dropped, the formatted string is "-1", and its second
    character is the digit where the mask has the literal. *)
Lemma positions_not_aligned :
  ∃ r, formatToMask (chars "a-9") (chars "1") = Ok r ∧
       ¬ aligned (chars "a-9") r.
Proof.
  exists (Masked (chars "-1") (chars "1")). split; [vm_compute; reflexivity|].
  intros Hal. specialize (Hal 1 "1" "-" eq_refl eq_refl).
  cbn in Hal. discriminate.
Qed.

(** C3, as the code has it. Nothing is appended once the raw input is used
    up: an iteration that starts with no input left ends the loop with the
    variables unchanged, so a pass that consumes the whole raw input returns
    a formatted string that is empty for an empty input and otherwise ends
    with the last raw character. *)
Theorem exhausted_input_not_padded (mask rawInput : list ascii) :
  (∀ (fuel maskIndex : nat) (st : locals),
      length rawInput ≤ inputIndex st →
      loop mask (S fuel) rawInput maskIndex st = Ok st) ∧
  ∃ st, formatRun mask rawInput = Ok st ∧
        (inputIndex st = length rawInput → endsAtLastConsumed rawInput st).
Proof.
  split; [intros fuel i st; apply loop_input_used_up|].
  exists (walk mask rawInput). split; [apply formatRun_walk|].
  intros Hall. unfold endsAtLastConsumed.
  rewrite (walk_last _ _ Hall), Hall.
  destruct rawInput as [|c l] using rev_ind; [reflexivity|].
  rewrite last_snoc, length_app, Nat.add_1_r.
  by rewrite lookup_app_r, Nat.sub_diag.
Qed.

Lemma exhausted_input_not_padded_witness :
  ∃ st, formatRun (chars "(999) 999-9999") (chars "555") = Ok st ∧
        inputIndex st = 3 ∧
        endsAtLastConsumed (chars "555") st.
Proof.
  destruct (exhausted_input_not_padded (chars "(999) 999-9999") (chars "555"))
    as (_ & st & Hrun & Hend).
  exists st.
  assert (inputIndex st = 3) as Hall.
  { vm_compute in Hrun. by injection Hrun as <-. }
  split_and!; [exact Hrun | exact Hall | exact (Hend Hall)].
Defined.

(** C3, as stated, fails: the mask "99-" has two placeholders and the input
    "a" one character; both placeholders are dropped, the literal is
    inserted, and the formatted string is "-" although no input character
    was consumed. *)
Lemma short_input_padded :
  length (chars "a") < placeholderCount (chars "99-") ∧
  ∃ st, formatRun (chars "99-") (chars "a") = Ok st ∧
        formatted (out st) = chars "-" ∧
        inputIndex st = 0 ∧
        ¬ endsAtLastConsumed (chars "a") st.
Proof.
  split; [vm_compute; lia|].
  exists (Locals (Masked (chars "-") []) 0).
  split_and!; try (vm_compute; reflexivity).
  unfold endsAtLastConsumed. cbn. discriminate.
Qed.

(** C1, as the code has it. When the first pass typed no literal, that is
    when every raw character that it consumed filled a placeholder (the input
    cursor ends at the length of the clean value), formatting the clean value
    again places every character of the clean value, and gives the first
    formatted string short of literals at its end: the two formatted strings
    are equal up to literals that the first pass appended after the last
    character it placed. *)
Theorem reformat_clean_value (mask rawInput : list ascii) :
  ∃ st1,
    formatRun mask rawInput = Ok st1 ∧
    formatToMask mask rawInput = Ok (out st1) ∧
    (inputIndex st1 = length (unformatted (out st1)) →
     ∃ r2 lits,
       formatToMask mask (unformatted (out st1)) = Ok r2 ∧
       unformatted r2 = unformatted (out st1) ∧
       formatted (out st1) = formatted r2 ++ lits ∧
       Forall (literalOf mask) lits).
Proof.
  exists (walk mask rawInput).
  split; [apply formatRun_walk|]. split; [apply formatToMask_walk|].
  intros Hplaced.
  destruct (walk_refills_placed mask rawInput Hplaced)
    as (rest & lits & _ & Hu & Hf & Hl).
  exists (out (walk mask (unformatted (out (walk mask rawInput))))), lits.
  split_and!; try assumption. apply formatToMask_walk.
Qed.

Lemma reformat_clean_value_witness :
  ∃ r1 r2 lits,
    formatToMask (chars "+1 (999) 999-9999") (chars "5551234567") = Ok r1 ∧
    formatToMask (chars "+1 (999) 999-9999") (unformatted r1) = Ok r2 ∧
    unformatted r2 = unformatted r1 ∧
    formatted r1 = formatted r2 ++ lits ∧
    Forall (literalOf (chars "+1 (999) 999-9999")) lits.
Proof.
  destruct (reformat_clean_value (chars "+1 (999) 999-9999")
              (chars "5551234567")) as (st1 & Hrun & Hfmt & Hre).
  assert (inputIndex st1 = length (unformatted (out st1))) as Hplaced.
  { vm_compute in Hrun. by injection Hrun as <-. }
  destruct (Hre Hplaced) as (r2 & lits & H2 & Hu & Hf & Hl).
  by exists (out st1), r2, lits.
Defined.

(** Why C1 needs the condition: for the mask "Xa9" the input "X1" types the
    literal and gives "X1" with the clean value "1", and the clean value
    alone gives empty strings, as the digit does not fit the placeholder
    that follows the literal. *)
Lemma reformat_after_typed_literal :
  ∃ st1 r2,
    formatRun (chars "Xa9") (chars "X1") = Ok st1 ∧
    inputIndex st1 ≠ length (unformatted (out st1)) ∧
    formatted (out st1) = chars "X1" ∧
    unformatted (out st1) = chars "1" ∧
    formatToMask (chars "Xa9") (unformatted (out st1)) = Ok r2 ∧
    formatted r2 = [] ∧
    unformatted r2 ≠ unformatted (out st1).
Proof.
  exists (Locals (Masked (chars "X1") (chars "1")) 2), (Masked [] []).
  split_and!; try (vm_compute; reflexivity); vm_compute; discriminate.
Qed.

(** C1, as stated, fails: for the mask "9-" the input "12" gives "1-", with
    the literal inserted because input is left, and the clean value "1"
    gives "1". *)
Lemma reformat_differs :
  ∃ r1 r2,
    formatToMask (chars "9-") (chars "12") = Ok r1 ∧
    formatToMask (chars "9-") (unformatted r1) = Ok r2 ∧
    formatted r2 ≠ formatted r1.
Proof.
  exists (Masked (chars "1-") (chars "1")), (Masked (chars "1") (chars "1")).
  split_and!; try (vm_compute; reflexivity). vm_compute. discriminate.
Qed.

(** C4, as the code has it. For the postal-code mask and a raw input that
    starts with a digit, the first iteration leaves every variable as it is
    (the placeholder is not filled and the input cursor stays) and the loop
    moves on: the first placeholder is dropped for good, the pass is the pass
    of the mask without it, and the digit is placed by the digit placeholder
    that follows, so that it opens both the formatted string and the clean
    value. *)
Theorem postal_digit_drops_slot (d : ascii) (rest : list ascii) :
  isDigit d = true →
  body postalMask (d :: rest) 0 initial = Ok (Next initial) ∧
  formatToMask postalMask (d :: rest)
  = formatToMask (drop 1 postalMask) (d :: rest) ∧
  ∃ r, formatToMask postalMask (d :: rest) = Ok r ∧
       formatted r !! 0 = Some d ∧
       unformatted r !! 0 = Some d.
Proof.
  intros Hd.
  assert (charMatchesMask d "a" = false) as Ha by by apply digit_not_letter.
  assert (charMatchesMask d "9" = true) as H9 by exact Hd.
  assert (walk postalMask (d :: rest)
          = placeFirst d (walk (drop 2 postalMask) rest)) as Hwalk.
  { change postalMask with ("a" :: "9" :: drop 2 postalMask).
    cbn [walk].
    change (includes placeholders "a") with true.
    change (includes placeholders "9") with true.
    rewrite Ha, H9. reflexivity. }
  split_and!.
  - rewrite (body_slot postalMask (d :: rest) 0 initial "a" eq_refl d
               eq_refl eq_refl).
    by rewrite Ha.
  - rewrite !formatToMask_walk. f_equal. f_equal.
    change postalMask with ("a" :: drop 1 postalMask) at 1.
    cbn [walk]. change (includes placeholders "a") with true.
    by rewrite Ha.
  - exists (out (walk postalMask (d :: rest))).
    rewrite formatToMask_walk, Hwalk. done.
Qed.

Lemma postal_digit_drops_slot_witness :
  isDigit "1" = true ∧
  formatToMask postalMask (chars "1A")
  = formatToMask (chars "9a 9a9") (chars "1A").
Proof.
  split; [reflexivity|].
  apply (postal_digit_drops_slot "1" (chars "A")). reflexivity.
Defined.

(** C4, as stated, fails: for the input "1A" the digit is not passed over
    and the letter does not take the first place; the digit opens the
    formatted string and the clean value, both of which are "1A". *)
Lemma postal_digit_not_skipped :
  ∃ r, formatToMask postalMask (chars "1A") = Ok r ∧
       formatted r = chars "1A" ∧
       unformatted r = chars "1A" ∧
       formatted r !! 0 ≠ Some "A".
Proof.
  exists (Masked (chars "1A") (chars "1A")).
  split_and!; try (vm_compute; reflexivity). vm_compute. discriminate.
Qed.

(** ** Key presses *)

(** C8. The handler is meant to suppress every key that is neither a listed
    editing key, nor pressed with a modifier, nor an alphanumeric character.
    The key "ArrowUp", pressed alone, is none of the three, and the handler
    lets it through: the character class is searched for anywhere in the name
    of the key, and finds the letter "A". *)
Theorem arrow_up_not_suppressed :
  let e := {| key := "ArrowUp"; ctrlKey := false; metaKey := false;
              altKey := false; shiftKey := false |} in
  (key e ∉ allowedKeys) ∧
  length (chars (key e)) ≠ 1 ∧
  handleKeyDown e = false.
Proof.
  cbv zeta. split_and!.
  - apply (bool_decide_unpack _). vm_compute. reflexivity.
  - vm_compute. discriminate.
  - vm_compute. reflexivity.
Qed.

(** * Further properties of the component *)

(** ** More on what a walk appends and consumes *)

Lemma isAlnum_digit_or_letter (c : ascii) :
  isAlnum c = isDigit c || isLetter c.
Proof. unfold isAlnum, isDigit, isLetter. apply orb_comm. Qed.

Lemma placeholderCount_slot (m : ascii) (ms : list ascii) :
  includes placeholders m = true →
  placeholderCount (m :: ms) = S (placeholderCount ms).
Proof. intros Hslot. unfold placeholderCount. cbn [List.filter]. by rewrite Hslot. Qed.

Lemma placeholderCount_literal (m : ascii) (ms : list ascii) :
  includes placeholders m = false →
  placeholderCount (m :: ms) = placeholderCount ms.
Proof. intros Hlit. unfold placeholderCount. cbn [List.filter]. by rewrite Hlit. Qed.

Lemma walk_lengths (ms inp : list ascii) :
  length (unformatted (out (walk ms inp))) ≤ inputIndex (walk ms inp) ∧
  inputIndex (walk ms inp) ≤ length (formatted (out (walk ms inp))) ∧
  length (unformatted (out (walk ms inp))) ≤ placeholderCount ms.
Proof.
  revert ms inp.
  apply (walk_ind (λ ms inp d,
           length (unformatted (out d)) ≤ inputIndex d ∧
           inputIndex d ≤ length (formatted (out d)) ∧
           length (unformatted (out d)) ≤ placeholderCount ms));
    intros;
    rewrite ?placeholderCount_slot, ?placeholderCount_literal by assumption;
    cbn in *; lia.
Qed.

(** Where the characters of the formatted string come from. *)
Lemma walk_provenance (ms inp : list ascii) :
  Forall (λ c, literalOf ms c ∨ (isAlnum c = true ∧ c ∈ inp))
         (formatted (out (walk ms inp))).
Proof.
  revert ms inp.
  apply (walk_ind (λ ms inp d,
           Forall (λ c, literalOf ms c ∨ (isAlnum c = true ∧ c ∈ inp))
                  (formatted (out d))));
    cbn [formatted out nothing placeFirst typedFirst insertedFirst];
    try (intros; by constructor).
  - intros m ms c inp _ Hcm IH. constructor.
    + right. split; [by eapply charMatchesMask_alnum | apply list_elem_of_here].
    + eapply Forall_impl; [exact IH|]. intros x [Hx|[Hx Hin]].
      * left. by apply literalOf_cons.
      * right. split; [exact Hx | by apply list_elem_of_further].
  - intros m ms c inp _ _ IH.
    eapply Forall_impl; [exact IH|]. intros x [Hx|Hx]; [|by right].
    left. by apply literalOf_cons.
  - intros m ms inp Hlit IH. constructor; [left; by apply literalOf_here|].
    eapply Forall_impl; [exact IH|]. intros x [Hx|[Hx Hin]].
    + left. by apply literalOf_cons.
    + right. split; [exact Hx | by apply list_elem_of_further].
  - intros m ms c inp Hlit _ _ IH. constructor; [left; by apply literalOf_here|].
    eapply Forall_impl; [exact IH|]. intros x [Hx|Hx]; [|by right].
    left. by apply literalOf_cons.
Qed.

(** More input at the end only extends the result. *)
Lemma walk_app (ms inp more : list ascii) :
  formatted (out (walk ms inp))
    `prefix_of` formatted (out (walk ms (inp ++ more))) ∧
  unformatted (out (walk ms inp))
    `prefix_of` unformatted (out (walk ms (inp ++ more))).
Proof.
  revert ms inp.
  apply (walk_ind (λ ms inp d,
           formatted (out d)
             `prefix_of` formatted (out (walk ms (inp ++ more))) ∧
           unformatted (out d)
             `prefix_of` unformatted (out (walk ms (inp ++ more)))));
    try (intros; split; apply prefix_nil).
  - intros m ms c inp Hslot Hcm [IHf IHu].
    cbn [app walk]. rewrite Hslot, Hcm.
    cbn [formatted unformatted out placeFirst].
    split; by apply prefix_cons.
  - intros m ms c inp Hslot Hcm IH. cbn [app walk] in *. by rewrite Hslot, Hcm.
  - intros m ms inp Hlit [IHf IHu].
    cbn [app walk]. rewrite Hlit, Ascii.eqb_refl.
    cbn [formatted unformatted out typedFirst].
    split; [by apply prefix_cons | exact IHu].
  - intros m ms c inp Hlit Hne Hla [IHf IHu].
    cbn [app walk] in *. apply Ascii.eqb_neq in Hne. rewrite Hlit, Hne, Hla.
    cbn [formatted unformatted out insertedFirst].
    split; [by apply prefix_cons | exact IHu].
Qed.

(** The input after the first character that is not consumed is never
    looked at. *)
Lemma walk_take (ms inp : list ascii) :
  inputIndex (walk ms inp) < length inp →
  ∀ other,
    walk ms (take (S (inputIndex (walk ms inp))) inp ++ other) = walk ms inp.
Proof.
  revert ms inp.
  apply (walk_ind (λ ms inp d,
           inputIndex d < length inp →
           ∀ other, walk ms (take (S (inputIndex d)) inp ++ other) = d)).
  - reflexivity.
  - cbn. lia.
  - intros m ms c inp Hslot Hcm IH Hlt other.
    cbn [inputIndex placeFirst length] in *. cbn [take app walk].
    rewrite Hslot, Hcm. f_equal. apply IH. lia.
  - intros m ms c inp Hslot Hcm IH Hlt other.
    specialize (IH Hlt other). cbn [take app walk] in *.
    by rewrite Hslot, Hcm.
  - intros m ms inp Hlit IH Hlt other.
    cbn [inputIndex typedFirst length] in *. cbn [take app walk].
    rewrite Hlit, Ascii.eqb_refl. f_equal. apply IH. lia.
  - intros m ms c inp Hlit Hne Hla IH Hlt other.
    cbn [inputIndex insertedFirst] in *.
    specialize (IH Hlt other). cbn [take app walk] in *.
    apply Ascii.eqb_neq in Hne. by rewrite Hlit, Hne, Hla, IH.
  - intros m ms c inp Hlit Hne Hla _ other.
    cbn [inputIndex nothing take app walk].
    apply Ascii.eqb_neq in Hne. by rewrite Hlit, Hne, Hla.
Qed.

(** An input that fits the mask fills it. *)
Lemma walk_fits (ms : list ascii) :
  ∀ inp, fits ms inp = true →
         walk ms inp = Locals (Masked (fill ms inp) inp) (length inp).
Proof.
  induction ms as [|m ms IH]; intros [|c inp] Hfits; try reflexivity;
    [discriminate|].
  cbn [fits] in Hfits. cbn [walk fill].
  destruct (includes placeholders m) eqn:Hslot.
  - apply andb_true_iff in Hfits as [Hcm Hfits]. rewrite Hcm.
    by rewrite (IH _ Hfits).
  - apply andb_true_iff in Hfits as [Hne Hfits].
    apply negb_true_iff in Hne. rewrite Hne.
    assert (lookahead c ms = true) as ->.
    { destruct ms as [|n ms']; [discriminate|]. cbn [fits] in Hfits.
      cbn [lookahead]. destruct (includes placeholders n); [|reflexivity].
      by apply andb_true_iff in Hfits as [? _]. }
    by rewrite (IH _ Hfits).
Qed.

Lemma plainLiterals_cons (m : ascii) (ms : list ascii) :
  plainLiterals (m :: ms) = true →
  (includes placeholders m = false → isAlnum m = false) ∧
  plainLiterals ms = true.
Proof.
  unfold plainLiterals. cbn [forallb]. intros H.
  apply andb_true_iff in H as [Hm Hms]. split; [|exact Hms].
  intros Hlit. rewrite Hlit in Hm. by apply negb_true_iff in Hm.
Qed.

Lemma plainLiterals_literal (ms : list ascii) (c : ascii) :
  plainLiterals ms = true → literalOf ms c → isAlnum c = false.
Proof.
  intros Hplain [Hin Hlit]. unfold plainLiterals in Hplain.
  rewrite forallb_forall in Hplain. apply list_elem_of_In in Hin.
  specialize (Hplain c Hin). rewrite Hlit in Hplain.
  by apply negb_true_iff in Hplain.
Qed.

(** With plain literals, the alphanumeric characters of the formatted string
    are the clean value. *)
Lemma walk_validChars (ms inp : list ascii) :
  plainLiterals ms = true →
  validChars (formatted (out (walk ms inp))) = unformatted (out (walk ms inp)).
Proof.
  revert ms inp.
  apply (walk_ind (λ ms inp d,
           plainLiterals ms = true →
           validChars (formatted (out d)) = unformatted (out d)));
    cbn [formatted unformatted out nothing placeFirst typedFirst insertedFirst];
    try reflexivity.
  - intros m ms c inp _ Hcm IH Hplain. unfold validChars in *.
    apply plainLiterals_cons in Hplain as [_ Hplain].
    cbn [List.filter]. rewrite (charMatchesMask_alnum _ _ Hcm). f_equal. auto.
  - intros m ms c inp _ _ IH Hplain.
    apply plainLiterals_cons in Hplain as [_ Hplain]. auto.
  - intros m ms inp Hlit IH Hplain. unfold validChars in *.
    apply plainLiterals_cons in Hplain as [Hm Hplain].
    cbn [List.filter]. rewrite (Hm Hlit). auto.
  - intros m ms c inp Hlit _ _ IH Hplain. unfold validChars in *.
    apply plainLiterals_cons in Hplain as [Hm Hplain].
    cbn [List.filter]. rewrite (Hm Hlit). auto.
Qed.

Lemma validChars_alnum (text : list ascii) :
  Forall (λ c, isAlnum c = true) (validChars text).
Proof.
  apply Forall_forall. intros c Hc. apply list_elem_of_In in Hc.
  by apply filter_In in Hc as [_ Hc].
Qed.

(** Alphanumeric input is never typed over a plain literal. *)
Lemma plain_untyped (ms inp : list ascii) :
  plainLiterals ms = true → Forall (λ c, isAlnum c = true) inp →
  untyped ms inp.
Proof.
  intros Hplain Hal. eapply Forall_impl; [exact Hal|].
  intros c Hc Hlit. cbv beta in Hc.
  rewrite (plainLiterals_literal _ _ Hplain Hlit) in Hc. discriminate.
Qed.

(** ** Character classes and placeholders *)

(** X1. The symbols that the formatter takes for placeholders are those that
    [charMatchesMask] has a class for: a symbol accepts some character
    exactly when it is in the array of placeholders, and an accepted
    character is alphanumeric. *)
Theorem placeholders_have_classes (m : ascii) :
  (includes placeholders m = true ↔ ∃ c, charMatchesMask c m = true) ∧
  (∀ c, charMatchesMask c m = true → isAlnum c = true).
Proof.
  split; [|intros c; apply charMatchesMask_alnum].
  unfold includes, placeholders, charMatchesMask. cbn [existsb]. split.
  - intros H. destruct (Ascii.eqb m "9"); [by exists "0"|].
    destruct (Ascii.eqb m "a"); [by exists "a"|].
    destruct (Ascii.eqb m "*"); [by exists "0"|]. discriminate.
  - intros [c H]. destruct (Ascii.eqb m "9"); [reflexivity|].
    destruct (Ascii.eqb m "a"); [reflexivity|].
    destruct (Ascii.eqb m "*"); [reflexivity|]. discriminate.
Qed.

Lemma placeholders_have_classes_witness :
  includes placeholders "*" = true ∧ isAlnum "Q" = true.
Proof.
  destruct (placeholders_have_classes "*") as [[_ Hin] Hal].
  split; [apply Hin; by exists "Q" | by apply Hal].
Defined.

(** X2. The placeholder [*] accepts what [9] or [a] accepts, and no character
    is accepted by both [9] and [a]. *)
Theorem star_is_digit_or_letter (c : ascii) :
  charMatchesMask c "*" = charMatchesMask c "9" || charMatchesMask c "a" ∧
  charMatchesMask c "9" && charMatchesMask c "a" = false.
Proof.
  change (charMatchesMask c "*") with (isAlnum c).
  change (charMatchesMask c "9") with (isDigit c).
  change (charMatchesMask c "a") with (isLetter c).
  split; [apply isAlnum_digit_or_letter|].
  destruct (isDigit c) eqn:Hd; [|reflexivity]. by apply digit_not_letter.
Qed.

(** ** Key presses, in full *)

Lemma allowedKeys_alnum (k : string) :
  existsb (String.eqb k) allowedKeys = true → testAlnum (chars k) = true.
Proof.
  intros H. apply existsb_exists in H as (k' & Hin & Heq).
  apply String.eqb_eq in Heq. subst k'.
  cbn in Hin. repeat destruct Hin as [<-|Hin]; try reflexivity. destruct Hin.
Qed.

Lemma handleKeyDown_unfold (e : KeyboardEvent) :
  handleKeyDown e
  = negb (ctrlKey e || metaKey e || altKey e || shiftKey e)
    && negb (testAlnum (chars (key e))).
Proof.
  unfold handleKeyDown.
  destruct (ctrlKey e || metaKey e || altKey e || shiftKey e); [reflexivity|].
  destruct (existsb (String.eqb (key e)) allowedKeys) eqn:Hallowed.
  - by rewrite (allowedKeys_alnum _ Hallowed).
  - by destruct (testAlnum (chars (key e))).
Qed.

(** X3. The list of allowed keys never decides: a key press is suppressed
    exactly when no modifier is held and the name of the key has no
    alphanumeric character. *)
Theorem keydown_suppressed_iff (e : KeyboardEvent) :
  handleKeyDown e
  = negb (ctrlKey e || metaKey e || altKey e || shiftKey e)
    && negb (testAlnum (chars (key e))).
Proof.
  unfold handleKeyDown.
  destruct (ctrlKey e || metaKey e || altKey e || shiftKey e); [reflexivity|].
  destruct (existsb (String.eqb (key e)) allowedKeys) eqn:Hallowed.
  - by rewrite (allowedKeys_alnum _ Hallowed).
  - by destruct (testAlnum (chars (key e))).
Qed.

(** X4. For a key whose name is one character, pressed without a modifier,
    the press is suppressed exactly when the character is not
    alphanumeric. *)
Theorem keydown_single_character (e : KeyboardEvent) (c : ascii) :
  key e = String c EmptyString →
  ctrlKey e || metaKey e || altKey e || shiftKey e = false →
  handleKeyDown e = negb (isAlnum c).
Proof.
  intros Hkey Hmod. rewrite handleKeyDown_unfold, Hmod, Hkey.
  cbn. by rewrite orb_false_r.
Qed.

Lemma keydown_single_character_witness :
  handleKeyDown {| key := "-"; ctrlKey := false; metaKey := false;
                   altKey := false; shiftKey := false |} = true ∧
  handleKeyDown {| key := "7"; ctrlKey := false; metaKey := false;
                   altKey := false; shiftKey := false |} = false.
Proof.
  split.
  - exact (keydown_single_character
             {| key := "-"; ctrlKey := false; metaKey := false;
                altKey := false; shiftKey := false |} "-" eq_refl eq_refl).
  - exact (keydown_single_character
             {| key := "7"; ctrlKey := false; metaKey := false;
                altKey := false; shiftKey := false |} "7" eq_refl eq_refl).
Defined.

(** ** The formatter, further *)

(** X5. With no input nothing is formatted, whatever the mask, and with an
    empty mask nothing is formatted, whatever the input. *)
Theorem nothing_to_format (mask rawInput : list ascii) :
  formatToMask mask [] = Ok (Masked [] []) ∧
  formatToMask [] rawInput = Ok (Masked [] []).
Proof.
  rewrite !formatToMask_walk, walk_no_input. split; reflexivity.
Qed.

(** X6. The counters of a pass: the clean value is no longer than the number
    of characters consumed, which is no more than the length of the input
    and than the length of the formatted string; the formatted string is no
    longer than the mask, and the clean value has at most as many characters
    as the mask has placeholders. *)
Theorem pass_counters (mask rawInput : list ascii) :
  ∃ st, formatRun mask rawInput = Ok st ∧
        length (unformatted (out st)) ≤ inputIndex st ∧
        inputIndex st ≤ length rawInput ∧
        inputIndex st ≤ length (formatted (out st)) ∧
        length (formatted (out st)) ≤ length mask ∧
        length (unformatted (out st)) ≤ placeholderCount mask.
Proof.
  exists (walk mask rawInput).
  destruct (walk_lengths mask rawInput) as (Hu & Hf & Hp).
  split_and!; try assumption.
  - apply formatRun_walk.
  - apply walk_consumed_le.
  - apply walk_formatted_le.
Qed.

(** X7. The formatter invents no character: every character of the formatted
    string is a literal of the mask or an alphanumeric character of the
    input. *)
Theorem formatted_from_mask_or_input (mask rawInput : list ascii) :
  ∃ r, formatToMask mask rawInput = Ok r ∧
       Forall (λ c, literalOf mask c ∨ (isAlnum c = true ∧ c ∈ rawInput))
              (formatted r).
Proof.
  exists (out (walk mask rawInput)).
  split; [apply formatToMask_walk | apply walk_provenance].
Qed.

(** X8. Input added at the end only extends the result: the formatted string
    and the clean value of an input start those of every longer input. *)
Theorem longer_input_extends (mask rawInput more : list ascii) :
  ∃ r r', formatToMask mask rawInput = Ok r ∧
          formatToMask mask (rawInput ++ more) = Ok r' ∧
          formatted r `prefix_of` formatted r' ∧
          unformatted r `prefix_of` unformatted r'.
Proof.
  exists (out (walk mask rawInput)), (out (walk mask (rawInput ++ more))).
  destruct (walk_app mask rawInput more) as [Hf Hu].
  split_and!; try assumption; apply formatToMask_walk.
Qed.

(** X9. When a pass ends with input left, the input after the first character
    that was not consumed has no part in the result: the pass is the same for
    every input that agrees up to that character. *)
Theorem rest_of_input_ignored (mask rawInput : list ascii) :
  ∃ st, formatRun mask rawInput = Ok st ∧
        (inputIndex st < length rawInput →
         ∀ other,
           formatRun mask (take (S (inputIndex st)) rawInput ++ other)
           = Ok st).
Proof.
  exists (walk mask rawInput). split; [apply formatRun_walk|].
  intros Hlt other. by rewrite formatRun_walk, walk_take.
Qed.

Lemma rest_of_input_ignored_witness :
  formatRun (chars "99") (chars "123" ++ chars "xyz")
  = formatRun (chars "99") (chars "123456").
Proof.
  destruct (rest_of_input_ignored (chars "99") (chars "123456"))
    as (st & Hrun & Hrest).
  rewrite Hrun. vm_compute in Hrun. injection Hrun as <-.
  apply (Hrest ltac:(cbn; lia) (chars "xyz")).
Defined.

(** X10. An input that fits the mask fills it: when the characters of the
    input are in the classes of the successive placeholders, are no more
    than the placeholders and differ from the literals they meet, the clean
    value is the input and the formatted string is the mask with its
    placeholders replaced, up to the placeholder of the last character. *)
Theorem fitting_input_fills_mask (mask rawInput : list ascii) :
  fits mask rawInput = true →
  formatToMask mask rawInput = Ok (Masked (fill mask rawInput) rawInput).
Proof.
  intros Hfits. by rewrite formatToMask_walk, (walk_fits _ _ Hfits).
Qed.

Lemma fitting_input_fills_mask_witness :
  formatToMask (chars "a9a 9a9") (chars "K1A0B")
  = Ok (Masked (chars "K1A 0B") (chars "K1A0B")).
Proof.
  apply (fitting_input_fills_mask (chars "a9a 9a9") (chars "K1A0B")).
  reflexivity.
Defined.

(** X11. When every literal of the mask is outside the alphanumeric class,
    the clean value is read back from the formatted string: it is the
    formatted string without its non-alphanumeric characters. *)
Theorem clean_value_from_formatted (mask rawInput : list ascii) :
  plainLiterals mask = true →
  ∃ r, formatToMask mask rawInput = Ok r ∧
       validChars (formatted r) = unformatted r.
Proof.
  intros Hplain. exists (out (walk mask rawInput)).
  split; [apply formatToMask_walk | by apply walk_validChars].
Qed.

Lemma clean_value_from_formatted_witness :
  ∃ r, formatToMask (chars "(999) 999-9999") (chars "5551234") = Ok r ∧
       validChars (formatted r) = unformatted r.
Proof.
  apply (clean_value_from_formatted (chars "(999) 999-9999") (chars "5551234")).
  reflexivity.
Defined.

Lemma walk_untyped_consumed (ms inp : list ascii) :
  untyped ms inp →
  inputIndex (walk ms inp) = length (unformatted (out (walk ms inp))).
Proof.
  revert ms inp.
  apply (walk_ind (λ ms inp d,
           untyped ms inp → inputIndex d = length (unformatted (out d))));
    cbn [inputIndex unformatted out nothing placeFirst typedFirst
         insertedFirst length]; try reflexivity.
  - intros m ms c inp _ _ IH Hun. f_equal. apply IH.
    by eapply untyped_tail_mask, untyped_tail_input.
  - intros m ms c inp _ _ IH Hun. apply IH. by eapply untyped_tail_mask.
  - intros m ms inp Hlit _ Hun. apply Forall_inv in Hun.
    destruct Hun. by apply literalOf_here.
  - intros m ms c inp _ _ _ IH Hun. apply IH. by eapply untyped_tail_mask.
Qed.

(** X12. When no character of the input is a literal of the mask, the clean
    value is the start of the input, as long as the number of characters
    consumed. *)
Theorem clean_value_starts_input (mask rawInput : list ascii) :
  Forall (λ c, ¬ literalOf mask c) rawInput →
  ∃ st, formatRun mask rawInput = Ok st ∧
        unformatted (out st) = take (inputIndex st) rawInput.
Proof.
  intros Hun. exists (walk mask rawInput). split; [apply formatRun_walk|].
  destruct (walk_refills mask rawInput Hun) as (rest & _ & Hinp & _).
  rewrite (walk_untyped_consumed _ _ Hun).
  remember (unformatted (out (walk mask rawInput))) as u.
  rewrite Hinp. by rewrite take_app_length.
Qed.

Lemma clean_value_starts_input_witness :
  ∃ st, formatRun (chars "99/99") (chars "12a45") = Ok st ∧
        unformatted (out st) = take (inputIndex st) (chars "12a45").
Proof.
  apply (clean_value_starts_input (chars "99/99") (chars "12a45")).
  repeat apply Forall_cons_2; try apply Forall_nil_2;
    intros [Hin _]; revert Hin; apply (bool_decide_unpack _);
    vm_compute; reflexivity.
Defined.

(** ** The change and paste handlers *)

Lemma handleChange_walk (mask : list ascii) (props : Props) (w : ui) :
  handleChange mask props w
  = let r := out (walk mask (validChars (elementValue w))) in
    let w1 := match controlledValue props with
              | None => setValue (formatted r) w
              | Some _ => w
              end in
    let w2 := if onChange props
              then invoke (CallOnChange (formatted r))
                          (setElementValue (formatted r) w1)
              else w1 in
    Ok (if onMaskedChange props
        then invoke (CallOnMaskedChange (formatted r) (unformatted r)) w2
        else w2).
Proof. unfold handleChange. rewrite formatToMask_walk. reflexivity. Qed.

Lemma handlePaste_walk (mask : list ascii) (props : Props)
    (pastedText : list ascii) (w : ui) :
  handlePaste mask props pastedText w
  = let r := out (walk mask (validChars pastedText)) in
    let w0 := preventDefault w in
    let w1 := match controlledValue props with
              | None => setValue (formatted r) w0
              | Some _ => w0
              end in
    let w2 := setElementValue (formatted r) w1 in
    let w3 := if onChange props
              then invoke (CallOnChange (formatted r)) w2
              else w2 in
    Ok (if onMaskedChange props
        then invoke (CallOnMaskedChange (formatted r) (unformatted r)) w3
        else w3).
Proof. unfold handlePaste. rewrite formatToMask_walk. reflexivity. Qed.

(** X13. A paste is handled as a change to the pasted text: the state cell,
    the displayed value and the calls of the callbacks ([onChange] with the
    same target value, [onMaskedChange] with the same two strings) are those
    of [handleChange] on an input element that holds the text. The two differ
    in this: the paste suppresses the default action, which the change
    leaves alone, and the paste always writes the formatted string to the
    input element, which the change does only when [onChange] is given. *)
Theorem paste_as_change (mask : list ascii) (props : Props)
    (text : list ascii) (w : ui) :
  ∃ wc wp r,
    formatToMask mask (validChars text) = Ok r ∧
    handleChange mask props (setElementValue text w) = Ok wc ∧
    handlePaste mask props text w = Ok wp ∧
    value wp = value wc ∧
    displayValue props wp = displayValue props wc ∧
    calls wp = calls wc ∧
    defaultPrevented wp = true ∧
    defaultPrevented wc = defaultPrevented w ∧
    elementValue wp = formatted r ∧
    elementValue wc = (if onChange props then formatted r else text).
Proof.
  rewrite handleChange_walk, handlePaste_walk, formatToMask_walk. cbv zeta.
  eexists _, _, _. split; [reflexivity|].
  split; [reflexivity|]. split; [reflexivity|].
  unfold displayValue.
  destruct props as [[v|] [] []]; cbn; split_and!; reflexivity.
Qed.

Lemma paste_as_change_witness :
  ∃ wc wp,
    handleChange (chars "99/99") (Build_Props None false true)
      (setElementValue (chars "1-2-3") (Ui [] (chars "old") false []))
    = Ok wc ∧
    handlePaste (chars "99/99") (Build_Props None false true)
      (chars "1-2-3") (Ui [] (chars "old") false []) = Ok wp ∧
    calls wp = calls wc ∧
    elementValue wp = chars "12/3" ∧
    elementValue wc = chars "1-2-3".
Proof.
  destruct (paste_as_change (chars "99/99") (Build_Props None false true)
              (chars "1-2-3") (Ui [] (chars "old") false []))
    as (wc & wp & r & Hr & Hc & Hp & _ & _ & Hcalls & _ & _ & Hwp & Hwc).
  vm_compute in Hr. injection Hr as <-.
  exists wc, wp. split_and!; [exact Hc | exact Hp | exact Hcalls
                             | exact Hwp | exact Hwc].
Defined.

(** X14. A change to a text without alphanumeric characters empties the
    field: an uncontrolled component stores the empty string, and the
    callbacks that are given are called with empty strings. *)
Theorem change_without_alphanumerics (mask : list ascii) (props : Props)
    (w : ui) :
  Forall (λ c, isAlnum c = false) (elementValue w) →
  ∃ w', handleChange mask props w = Ok w' ∧
        (controlledValue props = None → value w' = []) ∧
        calls w'
        = calls w
          ++ (if onChange props then [CallOnChange []] else [])
          ++ (if onMaskedChange props then [CallOnMaskedChange [] []] else []).
Proof.
  intros Hnone. rewrite handleChange_walk.
  assert (validChars (elementValue w) = []) as ->.
  { unfold validChars. induction Hnone as [|c l Hc _ IH]; [reflexivity|].
    cbn [List.filter]. by rewrite Hc. }
  rewrite walk_no_input. cbv zeta. eexists. split; [reflexivity|].
  destruct props as [[v|] [] []]; cbn; rewrite ?app_nil_r, <- ?app_assoc;
    split; try reflexivity; intros; try reflexivity; discriminate.
Qed.

Lemma change_without_alphanumerics_witness :
  ∃ w', handleChange (chars "(999) 999-9999") (Build_Props None false true)
          (Ui (chars "(555") (chars "(-") false []) = Ok w' ∧
        value w' = [].
Proof.
  destruct (change_without_alphanumerics (chars "(999) 999-9999")
              (Build_Props None false true)
              (Ui (chars "(555") (chars "(-") false []))
    as (w' & Hw & Hval & _).
  - repeat constructor.
  - exists w'. split; [exact Hw | exact (Hval eq_refl)].
Defined.

Lemma handleChange_uncontrolled (mask : list ascii) (props : Props) (w : ui) :
  controlledValue props = None →
  ∃ w', handleChange mask props w = Ok w' ∧
        value w' = formatted (out (walk mask (validChars (elementValue w)))) ∧
        (onMaskedChange props = true →
         last (calls w')
         = Some (CallOnMaskedChange
                   (formatted (out (walk mask (validChars (elementValue w)))))
                   (unformatted
                      (out (walk mask (validChars (elementValue w))))))).
Proof.
  intros Hnone. rewrite handleChange_walk. cbv zeta.
  eexists. split; [reflexivity|].
  destruct props as [v [] []]; cbn in Hnone; subst v; cbn;
    split; try reflexivity; intros; try discriminate; apply last_snoc.
Qed.

(** X15. The display of an uncontrolled component is stable under a change
    event that brings back the text it shows, when every literal of the mask
    is outside the alphanumeric class: the clean value that is reported is
    the same, and the new display is the old one short of literals at its
    end. *)
Theorem change_to_displayed_text (mask : list ascii) (props : Props) (w : ui) :
  plainLiterals mask = true →
  controlledValue props = None →
  ∃ w1 w2 lits,
    handleChange mask props w = Ok w1 ∧
    handleChange mask props (setElementValue (value w1) w1) = Ok w2 ∧
    value w1 = value w2 ++ lits ∧
    Forall (literalOf mask) lits ∧
    (onMaskedChange props = true →
     ∃ u, last (calls w1) = Some (CallOnMaskedChange (value w1) u) ∧
          last (calls w2) = Some (CallOnMaskedChange (value w2) u)).
Proof.
  intros Hplain Hnone.
  destruct (handleChange_uncontrolled mask props w Hnone)
    as (w1 & Hw1 & Hv1 & Hc1).
  destruct (handleChange_uncontrolled mask props
              (setElementValue (value w1) w1) Hnone) as (w2 & Hw2 & Hv2 & Hc2).
  cbn [elementValue setElementValue] in Hv2, Hc2.
  set (text := validChars (elementValue w)) in *.
  assert (untyped mask text) as Hun
    by (apply plain_untyped; [exact Hplain | apply validChars_alnum]).
  destruct (walk_refills mask text Hun) as (rest & lits & _ & Hu & Hf & Hl).
  pose proof (walk_validChars mask text Hplain) as Hback.
  rewrite <- Hv1 in Hback. rewrite Hback in Hv2, Hc2.
  exists w1, w2, lits. split_and!; try assumption.
  - by rewrite Hv1, Hv2.
  - intros Hon. exists (unformatted (out (walk mask text))).
    rewrite (Hc1 Hon), (Hc2 Hon), Hv1, Hv2, Hu. done.
Qed.

Lemma change_to_displayed_text_witness :
  ∃ w1 w2 lits,
    handleChange (chars "9-") (Build_Props None false false)
      (Ui [] (chars "12") false []) = Ok w1 ∧
    handleChange (chars "9-") (Build_Props None false false)
      (setElementValue (value w1) w1) = Ok w2 ∧
    value w1 = value w2 ++ lits.
Proof.
  destruct (change_to_displayed_text (chars "9-")
              (Build_Props None false false) (Ui [] (chars "12") false [])
              eq_refl eq_refl) as (w1 & w2 & lits & H1 & H2 & Hv & _).
  by exists w1, w2, lits.
Defined.

(** X16. The handlers always run to their end. For a controlled component
    they leave the state cell and the displayed value as they are; for an
    uncontrolled one the displayed value becomes the formatted string of the
    alphanumeric characters of the text, which is no longer than the mask. *)
Theorem display_after_edit (mask : list ascii) (props : Props)
    (text : list ascii) (w : ui) :
  ∃ wc wp,
    handleChange mask props (setElementValue text w) = Ok wc ∧
    handlePaste mask props text w = Ok wp ∧
    (∀ v, controlledValue props = Some v →
          value wc = value w ∧ value wp = value w ∧
          displayValue props wc = v ∧ displayValue props wp = v) ∧
    (controlledValue props = None →
     (∃ u, formatToMask mask (validChars text)
           = Ok (Masked (displayValue props wc) u)) ∧
     displayValue props wp = displayValue props wc ∧
     length (displayValue props wc) ≤ length mask).
Proof.
  rewrite handleChange_walk, handlePaste_walk, formatToMask_walk. cbv zeta.
  eexists _, _. split; [reflexivity|]. split; [reflexivity|].
  pose proof (walk_formatted_le mask (validChars text)) as Hle.
  unfold displayValue. cbn [elementValue setElementValue].
  destruct (walk mask (validChars text)) as [[f u] k].
  cbn [out formatted unformatted] in *.
  destruct props as [[v|] [] []]; cbn; split.
  all: try (intros v' Hv'; injection Hv' as <-; done).
  all: try (intros Hnone; discriminate).
  all: try (intros v' Hv'; discriminate).
  all: intros _; split_and!; [by exists u | reflexivity | exact Hle].
Qed.

Lemma display_after_edit_witness :
  ∃ wc, handleChange (chars "99/99") (Build_Props None true false)
          (setElementValue (chars "011524") (Ui [] [] false [])) = Ok wc ∧
        length (displayValue (Build_Props None true false) wc) ≤ 5.
Proof.
  destruct (display_after_edit (chars "99/99") (Build_Props None true false)
              (chars "011524") (Ui [] [] false []))
    as (wc & wp & Hc & _ & _ & Hun).
  exists wc. split; [exact Hc|]. by destruct (Hun eq_refl) as (_ & _ & Hle).
Defined.
